(** * string_analyzer: the filter/query engine, embedded in Rocq

    A shallow embedding of [internals/handlers/handlers.go]
    ([ComputeProperties], [isPalindrome], [countWords], the parameter parsing
    of [ListStrings], [parseNaturalLanguageQuery]) and of the in-memory store
    of [main.go] ([List], [matchesFilters]).

    Conventions.
    - A Go [string] is its byte sequence: [list ascii] (an [ascii] is one
      byte).  [len(s)] is [length s].
    - A Go [int] is a 64-bit two's-complement integer, carried as a [Z];
      additions and subtractions that can leave the range are wrapped with
      [int_wrap].  [len] of a string or slice always fits.
    - A [rune] is a [Z] (a Unicode code point).
    - A run-time panic (failed type assertion, index or slice out of range)
      is [None] in an [option]; Go's [error] results are a separate
      component.
    - Iterating a Go map visits its entries in an unspecified order: the
      loops over maps take the visiting order as an argument, and the
      theorems quantify over every permutation of the map's entries. *)

From stdpp Require Import gmap strings list fin_maps.
From Stdlib Require Import ZArith Lia Ascii.

Open Scope Z_scope.

Abbreviation gostring := (list ascii).

(** A string literal as a Go string. *)
Definition str (s : string) : gostring := String.list_ascii_of_string s.

(** ** Machine integers *)

Definition max_int : Z := 9223372036854775807.
Definition min_int : Z := -9223372036854775808.

Definition int_wrap (z : Z) : Z := (z + 2 ^ 63) mod 2 ^ 64 - 2 ^ 63.

Definition is_int (z : Z) : Prop := min_int <= z <= max_int.

(** ** Bytes and UTF-8 (package unicode/utf8) *)

Definition byteZ (a : ascii) : Z := Z.of_N (N_of_ascii a).

Definition byte_of (z : Z) : ascii := ascii_of_N (Z.to_N (z mod 256)).

Definition RuneError : Z := 65533.

Definition in_range (lo hi : Z) (a : ascii) : bool :=
  (lo <=? byteZ a) && (byteZ a <=? hi).

(** [utf8.DecodeRuneInString]: the rune at the front of [s] and its width in
    bytes.  Ill-formed input (a stray continuation byte, an overlong or
    surrogate encoding, a truncated sequence) gives [(RuneError, 1)]. *)
Definition DecodeRune (s : gostring) : Z * nat :=
  match s with
  | [] => (RuneError, 0%nat)
  | b0 :: t =>
    let x := byteZ b0 in
    if x <? 128 then (x, 1%nat)
    else if (194 <=? x) && (x <=? 223) then
      match t with
      | b1 :: _ =>
        if in_range 128 191 b1
        then (Z.lor (Z.shiftl (Z.land x 31) 6) (Z.land (byteZ b1) 63), 2%nat)
        else (RuneError, 1%nat)
      | _ => (RuneError, 1%nat)
      end
    else if (224 <=? x) && (x <=? 239) then
      let lo := if x =? 224 then 160 else 128 in
      let hi := if x =? 237 then 159 else 191 in
      match t with
      | b1 :: b2 :: _ =>
        if in_range lo hi b1 && in_range 128 191 b2
        then (Z.lor (Z.shiftl (Z.land x 15) 12)
                (Z.lor (Z.shiftl (Z.land (byteZ b1) 63) 6)
                       (Z.land (byteZ b2) 63)), 3%nat)
        else (RuneError, 1%nat)
      | _ => (RuneError, 1%nat)
      end
    else if (240 <=? x) && (x <=? 244) then
      let lo := if x =? 240 then 144 else 128 in
      let hi := if x =? 244 then 143 else 191 in
      match t with
      | b1 :: b2 :: b3 :: _ =>
        if in_range lo hi b1 && in_range 128 191 b2 && in_range 128 191 b3
        then (Z.lor (Z.shiftl (Z.land x 7) 18)
                (Z.lor (Z.shiftl (Z.land (byteZ b1) 63) 12)
                   (Z.lor (Z.shiftl (Z.land (byteZ b2) 63) 6)
                          (Z.land (byteZ b3) 63))), 4%nat)
        else (RuneError, 1%nat)
      | _ => (RuneError, 1%nat)
      end
    else (RuneError, 1%nat)
  end.

(** [for i, r := range s]: the runes of [s] in order, each with the bytes it
    was decoded from.  The fuel is the number of bytes left, which every
    step decreases. *)
Fixpoint range_fuel (fuel : nat) (s : gostring) : list (Z * gostring) :=
  match fuel with
  | O => []
  | S fuel' =>
    match s with
    | [] => []
    | _ :: _ =>
      let '(r, w) := DecodeRune s in
      (r, take w s) :: range_fuel fuel' (drop w s)
    end
  end.

Definition range_string (s : gostring) : list (Z * gostring) :=
  range_fuel (length s) s.

(** [[]rune(s)] *)
Definition runes (s : gostring) : list Z := (range_string s).*1.

(** [utf8.AppendRune], which is also [string(r)] and [WriteRune(r)]. *)
Definition EncodeRune (r : Z) : gostring :=
  if (r <? 0) || (1114111 <? r) || ((55296 <=? r) && (r <=? 57343))
  then [byte_of 239; byte_of 191; byte_of 189]
  else if r <=? 127 then [byte_of r]
  else if r <=? 2047 then
    [byte_of (Z.lor 192 (Z.shiftr r 6)); byte_of (Z.lor 128 (Z.land r 63))]
  else if r <=? 65535 then
    [byte_of (Z.lor 224 (Z.shiftr r 12));
     byte_of (Z.lor 128 (Z.land (Z.shiftr r 6) 63));
     byte_of (Z.lor 128 (Z.land r 63))]
  else
    [byte_of (Z.lor 240 (Z.shiftr r 18));
     byte_of (Z.lor 128 (Z.land (Z.shiftr r 12) 63));
     byte_of (Z.lor 128 (Z.land (Z.shiftr r 6) 63));
     byte_of (Z.lor 128 (Z.land r 63))].

(** ** Package unicode *)

(** [unicode.IsSpace]: the White_Space property, whole table. *)
Definition unicode_IsSpace (r : Z) : bool :=
  ((9 <=? r) && (r <=? 13)) || (r =? 32) || (r =? 133) || (r =? 160)
  || (r =? 5760) || ((8192 <=? r) && (r <=? 8202))
  || (r =? 8232) || (r =? 8233) || (r =? 8239) || (r =? 8287) || (r =? 12288).

(** The letter, digit and case tables of package unicode are not part of the
    repository; the program is embedded over arbitrary tables (section
    variables below).  The three definitions here reproduce them on
    U+0000..U+00FF and are used to evaluate the program on Latin-1 input. *)
Definition latin1_IsLetter (r : Z) : bool :=
  ((65 <=? r) && (r <=? 90)) || ((97 <=? r) && (r <=? 122))
  || (r =? 170) || (r =? 181) || (r =? 186)
  || ((192 <=? r) && (r <=? 214)) || ((216 <=? r) && (r <=? 246))
  || ((248 <=? r) && (r <=? 255)).

Definition latin1_IsDigit (r : Z) : bool := (48 <=? r) && (r <=? 57).

Definition latin1_ToLower (r : Z) : Z :=
  if ((65 <=? r) && (r <=? 90)) || ((192 <=? r) && (r <=? 214))
     || ((216 <=? r) && (r <=? 222))
  then r + 32 else r.

(** ** Package strings (the parts that do not depend on the case table) *)

Fixpoint has_prefix (sub s : gostring) : bool :=
  match sub, s with
  | [], _ => true
  | _ :: _, [] => false
  | a :: sub', b :: s' => bool_decide (a = b) && has_prefix sub' s'
  end.

Fixpoint index_from (i : Z) (s sub : gostring) : Z :=
  if has_prefix sub s then i
  else match s with
       | [] => -1
       | _ :: s' => index_from (i + 1) s' sub
       end.

(** [strings.Index]: byte offset of the first occurrence of [sub], or -1. *)
Definition strings_Index (s sub : gostring) : Z := index_from 0 s sub.

(** [strings.Contains] *)
Definition strings_Contains (s sub : gostring) : bool :=
  0 <=? strings_Index s sub.

(** [strings.Fields]: maximal runs of runes that are not white space. *)
Fixpoint fields_of (cs : list (Z * gostring)) (cur : option gostring)
  : list gostring :=
  match cs with
  | [] => match cur with Some w => [w] | None => [] end
  | (r, bs) :: cs' =>
    if unicode_IsSpace r
    then match cur with
         | Some w => w :: fields_of cs' None
         | None => fields_of cs' None
         end
    else fields_of cs' (Some (default [] cur ++ bs))
  end.

Definition strings_Fields (s : gostring) : list gostring :=
  fields_of (range_string s) None.

(** [strings.TrimSpace]: leading and trailing white-space runes removed.
    Go finds the trailing runes with [DecodeLastRuneInString]; a white-space
    rune ends a string exactly when it is the last rune of the decoding from
    the front, so both ends are trimmed on that decoding. *)
Definition is_space_chunk (c : Z * gostring) : bool := unicode_IsSpace c.1.

Fixpoint drop_while {A} (p : A → bool) (l : list A) : list A :=
  match l with
  | [] => []
  | x :: l' => if p x then drop_while p l' else l
  end.

Definition strings_TrimSpace (s : gostring) : gostring :=
  let cs := drop_while is_space_chunk (range_string s) in
  let cs := reverse (drop_while is_space_chunk (reverse cs)) in
  concat cs.*2.

(** [s[k:]] for a string: panics unless [0 <= k <= len(s)]. *)
Definition slice_from (s : gostring) (k : Z) : option gostring :=
  if (0 <=? k) && (k <=? Z.of_nat (length s))
  then Some (drop (Z.to_nat k) s) else None.

(** [a[i]] for a slice, with an [int] index. *)
Definition index_at {A} (a : list A) (i : Z) : option A :=
  if 0 <=? i then a !! Z.to_nat i else None.

(** ** Package strconv *)

Definition digit_val (a : ascii) : option Z :=
  let x := byteZ a in
  if (48 <=? x) && (x <=? 57) then Some (x - 48) else None.

Fixpoint parse_digits (s : gostring) (acc : Z) : option Z :=
  match s with
  | [] => Some acc
  | a :: t =>
    match digit_val a with
    | Some d => parse_digits t (acc * 10 + d)
    | None => None
    end
  end.

(** [strconv.Atoi]: optional sign, at least one decimal digit, nothing else;
    [None] stands for a non-nil error (syntax or out of range). *)
Definition Atoi (s : gostring) : option Z :=
  let '(neg, body) :=
    match s with
    | a :: t =>
      if bool_decide (a = "-"%char) then (true, t)
      else if bool_decide (a = "+"%char) then (false, t)
      else (false, s)
    | [] => (false, s)
    end in
  match body with
  | [] => None
  | _ :: _ =>
    match parse_digits body 0 with
    | None => None
    | Some n =>
      let v := if neg then - n else n in
      if (min_int <=? v) && (v <=? max_int) then Some v else None
    end
  end.

(** [strconv.ParseBool] *)
Definition ParseBool (s : gostring) : option bool :=
  if bool_decide (s ∈ [str "1"; str "t"; str "T"; str "TRUE"; str "true"; str "True"])
  then Some true
  else if bool_decide (s ∈ [str "0"; str "f"; str "F"; str "FALSE"; str "false"; str "False"])
  then Some false
  else None.

(** ** Packages crypto/sha256 and encoding/hex *)

Module SHA256.

Definition w32 (z : Z) : Z := z mod 2 ^ 32.

Definition rotr (n x : Z) : Z :=
  Z.lor (Z.shiftr x n) (w32 (Z.shiftl x (32 - n))).

Definition K : list Z :=
  [1116352408; 1899447441; 3049323471; 3921009573; 961987163; 1508970993;
   2453635748; 2870763221; 3624381080; 310598401; 607225278; 1426881987;
   1925078388; 2162078206; 2614888103; 3248222580; 3835390401; 4022224774;
   264347078; 604807628; 770255983; 1249150122; 1555081692; 1996064986;
   2554220882; 2821834349; 2952996808; 3210313671; 3336571891; 3584528711;
   113926993; 338241895; 666307205; 773529912; 1294757372; 1396182291;
   1695183700; 1986661051; 2177026350; 2456956037; 2730485921; 2820302411;
   3259730800; 3345764771; 3516065817; 3600352804; 4094571909; 275423344;
   430227734; 506948616; 659060556; 883997877; 958139571; 1322822218;
   1537002063; 1747873779; 1955562222; 2024104815; 2227730452; 2361852424;
   2428436474; 2756734187; 3204031479; 3329325298].

Definition H0 : list Z :=
  [1779033703; 3144134277; 1013904242; 2773480762; 1359893119; 2600822924;
   528734635; 1541459225].

Definition big_endian (bs : list Z) : Z :=
  foldl (λ acc b, acc * 256 + b) 0 bs.

Fixpoint to_big_endian (n : nat) (z : Z) : list Z :=
  match n with
  | O => []
  | S n' => to_big_endian n' (z / 256) ++ [z mod 256]
  end.

Fixpoint chunks (fuel n : nat) (l : list Z) : list (list Z) :=
  match fuel with
  | O => []
  | S fuel' =>
    match l with
    | [] => []
    | _ => take n l :: chunks fuel' n (drop n l)
    end
  end.

Definition pad (msg : list Z) : list Z :=
  let len := Z.of_nat (length msg) in
  let zeros := Z.to_nat ((55 - len) mod 64) in
  msg ++ [128] ++ replicate zeros 0 ++ to_big_endian 8 (8 * len).

Definition small_sigma0 (x : Z) : Z :=
  Z.lxor (Z.lxor (rotr 7 x) (rotr 18 x)) (Z.shiftr x 3).
Definition small_sigma1 (x : Z) : Z :=
  Z.lxor (Z.lxor (rotr 17 x) (rotr 19 x)) (Z.shiftr x 10).
Definition big_sigma0 (x : Z) : Z :=
  Z.lxor (Z.lxor (rotr 2 x) (rotr 13 x)) (rotr 22 x).
Definition big_sigma1 (x : Z) : Z :=
  Z.lxor (Z.lxor (rotr 6 x) (rotr 11 x)) (rotr 25 x).
Definition Ch (e f g : Z) : Z :=
  Z.lxor (Z.land e f) (Z.land (2 ^ 32 - 1 - e) g).
Definition Maj (a b c : Z) : Z :=
  Z.lxor (Z.lxor (Z.land a b) (Z.land a c)) (Z.land b c).

Fixpoint extend (n : nat) (w : list Z) : list Z :=
  match n with
  | O => w
  | S n' =>
    let t := length w in
    let get k := default 0 (w !! (t - k)%nat) in
    extend n' (w ++ [w32 (small_sigma1 (get 2%nat) + get 7%nat
                          + small_sigma0 (get 15%nat) + get 16%nat)])
  end.

Definition schedule (block : list Z) : list Z :=
  extend 48 (big_endian <$> chunks 16 4 block).

Definition round (st : list Z) (kw : Z * Z) : list Z :=
  match st with
  | [a; b; c; d; e; f; g; h] =>
    let t1 := h + big_sigma1 e + Ch e f g + kw.1 + kw.2 in
    let t2 := big_sigma0 a + Maj a b c in
    [w32 (t1 + t2); a; b; c; w32 (d + t1); e; f; g]
  | _ => st
  end.

Definition compress (h : list Z) (block : list Z) : list Z :=
  let st := foldl round h (zip K (schedule block)) in
  zip_with (λ x y, w32 (x + y)) h st.

(** [sha256.Sum256]: the 32 bytes of the digest. *)
Definition Sum256 (msg : gostring) : list Z :=
  let padded := pad (byteZ <$> msg) in
  let h := foldl compress H0 (chunks (length padded) 64 padded) in
  h ≫= to_big_endian 4.

End SHA256.

Definition hex_digit (z : Z) : ascii :=
  if z <? 10 then byte_of (48 + z) else byte_of (87 + z).

(** [hex.EncodeToString] *)
Definition hex_EncodeToString (bs : list Z) : gostring :=
  bs ≫= (λ b, [hex_digit (b / 16); hex_digit (b mod 16)]).

(** ** Models (handlers.go) *)

Record Properties := {
  Length : Z;
  IsPalindrome : bool;
  UniqueCharacters : Z;
  WordCount : Z;
  SHA256Hash : gostring;
  CharacterFrequencyMap : gmap gostring Z
}.

Record StringResource := {
  ID : gostring;
  Value : gostring;
  Props : Properties;
  CreatedAt : Z
}.

(** A value of Go's [any]: the three dynamic types the filters use, and
    [VOther] for a value of any other type ([nil] included). *)
Inductive any :=
| VBool (b : bool)
| VInt (n : Z)
| VString (s : gostring)
| VOther.

Definition k_is_palindrome : gostring := str "is_palindrome".
Definition k_min_length : gostring := str "min_length".
Definition k_max_length : gostring := str "max_length".
Definition k_word_count : gostring := str "word_count".
Definition k_contains_character : gostring := str "contains_character".

(** ** handlers.go *)

Section Handlers.

(** Package unicode's [IsLetter], [IsDigit] and [ToLower]. *)
Variable unicode_IsLetter unicode_IsDigit : Z → bool.
Variable unicode_ToLower : Z → Z.

(** [strings.Map] *)
Definition strings_Map (mapping : Z → Z) (s : gostring) : gostring :=
  range_string s ≫= (λ c, let r := mapping c.1 in
                           if r <? 0 then [] else EncodeRune r).

Definition ascii_lower (a : ascii) : ascii :=
  if (65 <=? byteZ a) && (byteZ a <=? 90) then byte_of (byteZ a + 32) else a.

(** [strings.ToLower]: bytewise on pure ASCII, else [Map(unicode.ToLower, s)]. *)
Definition strings_ToLower (s : gostring) : gostring :=
  if forallb (λ a, byteZ a <? 128) s
  then ascii_lower <$> s
  else strings_Map unicode_ToLower s.

(** The [cleaned] builder of [isPalindrome], as runes and as the string. *)
Definition cleaned_runes (s : gostring) : list Z :=
  List.filter (λ r, unicode_IsLetter r || unicode_IsDigit r)
              (runes (strings_ToLower s)).

Definition cleaned (s : gostring) : gostring :=
  cleaned_runes s ≫= EncodeRune.

Definition isPalindrome (s : gostring) : bool :=
  let str := cleaned s in
  forallb (λ i, bool_decide (str !! i = str !! (length str - 1 - i)%nat))
          (seq 0 (length str / 2)).

Definition countWords (s : gostring) : Z :=
  Z.of_nat (length (strings_Fields s)).

(** [freqMap[string(r)]++] *)
Definition freq_incr (m : gmap gostring Z) (r : Z) : gmap gostring Z :=
  <[EncodeRune r := default 0 (m !! EncodeRune r) + 1]> m.

Definition freqMap_of (value : gostring) : gmap gostring Z :=
  foldl freq_incr ∅ (runes value).

Definition ComputeProperties (value : gostring) : Properties :=
  let hash := SHA256.Sum256 value in
  let hashStr := hex_EncodeToString hash in
  let freqMap := freqMap_of value in
  let isPalin := isPalindrome value in
  let wordCount := countWords value in
  {| Length := Z.of_nat (length value);
     IsPalindrome := isPalin;
     UniqueCharacters := Z.of_nat (size freqMap);
     WordCount := wordCount;
     SHA256Hash := hashStr;
     CharacterFrequencyMap := freqMap |}.

(** *** ListStrings: the query parameters *)

(** What [query.Get] returns for each parameter (empty when absent). *)
Record ListQuery := {
  q_is_palindrome : gostring;
  q_min_length : gostring;
  q_max_length : gostring;
  q_word_count : gostring;
  q_contains_character : gostring;
  q_limit : gostring;
  q_offset : gostring
}.

(** Either a 400 response with its message, or the call
    [h.store.List(filters, limit, offset)]. *)
Inductive ListRequest :=
| BadRequest (message : gostring)
| CallList (filters : gmap gostring any) (limit offset : Z).

Definition non_negative_param (val : gostring) (key : gostring)
    (message : gostring) (filters : gmap gostring any)
  : gostring + gmap gostring any :=
  if bool_decide (val = []) then inr filters
  else match Atoi val with
       | Some n => if n <? 0 then inl message else inr (<[key := VInt n]> filters)
       | None => inl message
       end.

Definition ListStrings_request (q : ListQuery) : ListRequest :=
  let filters : gmap gostring any := ∅ in
  match (if bool_decide (q_is_palindrome q = []) then inr filters
         else match ParseBool (q_is_palindrome q) with
              | Some isPalin => inr (<[k_is_palindrome := VBool isPalin]> filters)
              | None => inl (str "Invalid is_palindrome value")
              end) with
  | inl m => BadRequest m
  | inr filters =>
  match non_negative_param (q_min_length q) k_min_length
          (str "Invalid min_length value") filters with
  | inl m => BadRequest m
  | inr filters =>
  match non_negative_param (q_max_length q) k_max_length
          (str "Invalid max_length value") filters with
  | inl m => BadRequest m
  | inr filters =>
  match non_negative_param (q_word_count q) k_word_count
          (str "Invalid word_count value") filters with
  | inl m => BadRequest m
  | inr filters =>
  match (if bool_decide (q_contains_character q = []) then inr filters
         else if bool_decide (length (runes (q_contains_character q)) ≠ 1%nat)
              then inl (str "contains_character must be exactly one character")
              else inr (<[k_contains_character := VString (q_contains_character q)]> filters)) with
  | inl m => BadRequest m
  | inr filters =>
  match (if bool_decide (q_limit q = []) then inr 25
         else match Atoi (q_limit q) with
              | Some l => if (l <? 1) || (100 <? l)
                          then inl (str "Invalid limit value (1-100)") else inr l
              | None => inl (str "Invalid limit value (1-100)")
              end) with
  | inl m => BadRequest m
  | inr limit =>
  match (if bool_decide (q_offset q = []) then inr 0
         else match Atoi (q_offset q) with
              | Some o => if o <? 0 then inl (str "Invalid offset value") else inr o
              | None => inl (str "Invalid offset value")
              end) with
  | inl m => BadRequest m
  | inr offset => CallList filters limit offset
  end end end end end end end.

(** *** parseNaturalLanguageQuery *)

(** The word-count loop; [rest] is the part of [words] from index [i] on.
    Returning without recursing is the [break]. *)
Fixpoint word_count_loop (words : list gostring) (i : nat)
    (rest : list gostring) (filters : gmap gostring any)
  : option (gmap gostring any) :=
  match rest with
  | [] => Some filters
  | word :: rest' =>
    if (bool_decide (word = str "word") || bool_decide (word = str "words"))
       && (0 <? Z.of_nat i)
    then
      prev ← index_at words (Z.of_nat i - 1);
      match Atoi prev with
      | Some count => Some (<[k_word_count := VInt count]> filters)
      | None =>
        if bool_decide (prev = str "single")
        then Some (<[k_word_count := VInt 1]> filters)
        else word_count_loop words (S i) rest' filters
      end
    else word_count_loop words (S i) rest' filters
  end.

(** The length-comparison loop. *)
Fixpoint length_loop (words : list gostring) (i : nat)
    (rest : list gostring) (filters : gmap gostring any)
  : option (gmap gostring any) :=
  match rest with
  | [] => Some filters
  | word :: rest' =>
    if bool_decide (word = str "than") && (0 <? Z.of_nat i)
       && (Z.of_nat i <? Z.of_nat (length words) - 1)
    then
      next ← index_at words (Z.of_nat i + 1);
      match Atoi next with
      | Some length =>
        prev ← index_at words (Z.of_nat i - 1);
        length_loop words (S i) rest'
          (if bool_decide (prev = str "longer")
           then <[k_min_length := VInt (int_wrap (length + 1))]> filters
           else if bool_decide (prev = str "shorter")
           then <[k_max_length := VInt (int_wrap (length - 1))]> filters
           else filters)
      | None => length_loop words (S i) rest' filters
      end
    else length_loop words (S i) rest' filters
  end.

(** The "contains X" / "containing X" block. *)
Definition contains_block (lower : gostring) (words : list gostring)
    (filters : gmap gostring any) : option (gmap gostring any) :=
  let containsIndex := strings_Index lower (str "containing") in
  let searchWord := str "containing" in
  let '(containsIndex, searchWord) :=
    if containsIndex =? -1
    then (strings_Index lower (str "contains"), str "contains")
    else (containsIndex, searchWord) in
  if negb (containsIndex =? -1) then
    remainingStr ← slice_from lower (containsIndex + Z.of_nat (length searchWord));
    let letterIndex := strings_Index remainingStr (str "letter ") in
    if negb (letterIndex =? -1) then
      after ← slice_from remainingStr (letterIndex + Z.of_nat (length (str "letter ")));
      let charAfter := strings_TrimSpace after in
      if 0 <? Z.of_nat (length charAfter) then
        r ← index_at (runes charAfter) 0;
        Some (<[k_contains_character := VString (EncodeRune r)]> filters)
      else Some filters
    else
      lastWord ← index_at words (Z.of_nat (length words) - 1);
      if bool_decide (length (runes lastWord) = 1%nat)
      then Some (<[k_contains_character := VString lastWord]> filters)
      else Some filters
  else Some filters.

(** The result pairs the filter map with the returned [error] ([None] is
    [nil]); the outer [option] is [None] when the function panics. *)
Definition parseNaturalLanguageQuery (query : gostring)
  : option (gmap gostring any * option gostring) :=
  let filters : gmap gostring any := ∅ in
  let lower := strings_ToLower query in
  let words := strings_Fields lower in
  let filters :=
    if strings_Contains lower (str "palindrom")
    then <[k_is_palindrome := VBool true]> filters else filters in
  filters ← word_count_loop words 0 words filters;
  filters ← length_loop words 0 words filters;
  filters ← contains_block lower words filters;
  Some (filters, None).

End Handlers.

(** ** main.go: the in-memory store *)

(** One iteration of the loop of [matchesFilters]: [Some true] goes on to the
    next entry, [Some false] is [return false], [None] is the panic of a
    failed type assertion. *)
Definition check_filter (res : StringResource) (key : gostring) (val : any)
  : option bool :=
  if bool_decide (key = k_is_palindrome) then
    match val with
    | VBool b => Some (bool_decide (IsPalindrome (Props res) = b))
    | _ => None
    end
  else if bool_decide (key = k_min_length) then
    match val with
    | VInt n => Some (negb (Length (Props res) <? n))
    | _ => None
    end
  else if bool_decide (key = k_max_length) then
    match val with
    | VInt n => Some (negb (Length (Props res) >? n))
    | _ => None
    end
  else if bool_decide (key = k_word_count) then
    match val with
    | VInt n => Some (bool_decide (WordCount (Props res) = n))
    | _ => None
    end
  else if bool_decide (key = k_contains_character) then
    match val with
    | VString char =>
      Some (bool_decide (is_Some (CharacterFrequencyMap (Props res) !! char)))
    | _ => None
    end
  else Some true.

(** [matchesFilters], with [entries] the order in which [range filters]
    visits the map. *)
Fixpoint matchesFilters (res : StringResource)
    (entries : list (gostring * any)) : option bool :=
  match entries with
  | [] => Some true
  | (key, val) :: entries' =>
    match check_filter res key val with
    | None => None
    | Some false => Some false
    | Some true => matchesFilters res entries'
    end
  end.

(** The filtering loop of [List]: [order] is the order in which [range
    s.store] visits the resources and [visit k] the order in which the
    [k]-th call of [matchesFilters] visits the filters. *)
Fixpoint collect (visit : nat → list (gostring * any)) (k : nat)
    (order : list StringResource) (allResults : list StringResource)
  : option (list StringResource) :=
  match order with
  | [] => Some allResults
  | res :: order' =>
    match matchesFilters res (visit k) with
    | None => None
    | Some true => collect visit (S k) order' (allResults ++ [res])
    | Some false => collect visit (S k) order' allResults
    end
  end.

(** [a[start:end]]: panics unless [0 <= start <= end <= cap(a)].  [List]
    only ever slices with [end <= len(a)]. *)
Definition slice {A} (a : list A) (start end_ : Z) : option (list A) :=
  if (0 <=? start) && (start <=? end_) && (end_ <=? Z.of_nat (length a))
  then Some (take (Z.to_nat (end_ - start)) (drop (Z.to_nat start) a))
  else None.

(** [List]; the [error] result is always [nil] and is left out. *)
Definition List (order : list StringResource)
    (visit : nat → list (gostring * any)) (limit offset : Z)
  : option (list StringResource * Z) :=
  allResults ← collect visit 0 order [];
  let totalCount := Z.of_nat (length allResults) in
  let start := offset in
  let end_ := int_wrap (offset + limit) in
  if start >? totalCount then Some ([], totalCount)
  else
    let end_ := if end_ >? totalCount then totalCount else end_ in
    paginatedResults ← slice allResults start end_;
    Some (paginatedResults, totalCount).

(** [s.store], a [map[string]*StringResource], and the visiting orders that
    ranging over a map can take. *)
Definition range_map {V} (m : gmap gostring V) (entries : list (gostring * V)) : Prop :=
  entries ≡ₚ map_to_list m.

Definition range_store (store : gmap gostring StringResource)
    (order : list StringResource) : Prop :=
  order ≡ₚ (map_to_list store).*2.

(** [CreateString] builds the stored resource from the computed properties. *)
Definition new_resource (props : Properties) (value : gostring) (now : Z)
  : StringResource :=
  {| ID := SHA256Hash props; Value := value; Props := props; CreatedAt := now |}.

(** ** Specification-level definitions *)

(** *** FilterSet typing and the per-filter semantics *)

(** The dynamic type each recognised filter name must carry. *)
Definition filter_type_ok (key : gostring) (val : any) : bool :=
  if bool_decide (key = k_is_palindrome)
  then match val with VBool _ => true | _ => false end
  else if bool_decide (key = k_min_length) || bool_decide (key = k_max_length)
          || bool_decide (key = k_word_count)
  then match val with VInt _ => true | _ => false end
  else if bool_decide (key = k_contains_character)
  then match val with VString _ => true | _ => false end
  else true.

Definition well_typed (f : gmap gostring any) : Prop :=
  map_Forall (λ key val, filter_type_ok key val = true) f.

(** A resource's properties satisfy every filter present in [f]; an absent
    filter imposes nothing. *)
Definition sat_is_palindrome (p : Properties) (f : gmap gostring any) : Prop :=
  match f !! k_is_palindrome with
  | Some (VBool b) => IsPalindrome p = b
  | _ => True
  end.

Definition sat_min_length (p : Properties) (f : gmap gostring any) : Prop :=
  match f !! k_min_length with
  | Some (VInt n) => Length p >= n
  | _ => True
  end.

Definition sat_max_length (p : Properties) (f : gmap gostring any) : Prop :=
  match f !! k_max_length with
  | Some (VInt n) => Length p <= n
  | _ => True
  end.

Definition sat_word_count (p : Properties) (f : gmap gostring any) : Prop :=
  match f !! k_word_count with
  | Some (VInt n) => WordCount p = n
  | _ => True
  end.

Definition sat_contains_character (p : Properties) (f : gmap gostring any) : Prop :=
  match f !! k_contains_character with
  | Some (VString c) => c ∈ dom (CharacterFrequencyMap p)
  | _ => True
  end.

Definition satisfies (p : Properties) (f : gmap gostring any) : Prop :=
  sat_is_palindrome p f ∧ sat_min_length p f ∧ sat_max_length p f
  ∧ sat_word_count p f ∧ sat_contains_character p f.

Global Instance satisfies_dec p f : Decision (satisfies p f).
Proof.
  unfold satisfies, sat_is_palindrome, sat_min_length, sat_max_length,
    sat_word_count, sat_contains_character.
  repeat case_match; apply _.
Defined.

(** An entry of the filter map lets the loop of [matchesFilters] go on. *)
Definition entry_holds (res : StringResource) (kv : gostring * any) : Prop :=
  check_filter res kv.1 kv.2 = Some true.

Global Instance entry_holds_dec res kv : Decision (entry_holds res kv).
Proof. unfold entry_holds. apply _. Defined.

(** The sum of the counts of a frequency map. *)
Definition sum_values (m : gmap gostring Z) : Z :=
  map_fold (λ _ v acc, v + acc) 0 m.

(** The full matching set, in the order the store was visited. *)
Definition matching (f : gmap gostring any) (order : list StringResource)
  : list StringResource :=
  filter (λ res, satisfies (Props res) f) order.

(** The elements of [l] at positions [lo <= i < hi]. *)
Definition sublist {A} (lo hi : Z) (l : list A) : list A :=
  take (Z.to_nat (hi - lo)) (drop (Z.to_nat lo) l).

(** *** The heuristics of the natural-language parser, on the tokens *)

Definition pairs (ws : list gostring) : list (gostring * gostring) :=
  zip ws (tail ws).

Definition triples (ws : list gostring) : list (gostring * gostring * gostring) :=
  zip (zip ws (tail ws)) (tail (tail ws)).

(** Word count: what a token pair [a b] stands for.  [a] is any token
    [Atoi] accepts (signed), or "single"; [b] is "word" or "words". *)
Definition word_count_of (ab : gostring * gostring) : option Z :=
  if bool_decide (ab.2 = str "word") || bool_decide (ab.2 = str "words")
  then match Atoi ab.1 with
       | Some n => Some n
       | None => if bool_decide (ab.1 = str "single") then Some 1 else None
       end
  else None.

(** The earliest matching pair decides. *)
Definition spec_word_count (ws : list gostring) : option Z :=
  head (omap word_count_of (pairs ws)).

(** The same heuristic as the specification words it: "<N> word(s)" with a
    non-negative integer, or the phrase "single word". *)
Definition stated_word_count_of (ab : gostring * gostring) : option Z :=
  match Atoi ab.1 with
  | Some n =>
    if (bool_decide (ab.2 = str "word") || bool_decide (ab.2 = str "words"))
       && (0 <=? n)
    then Some n else None
  | None =>
    if bool_decide (ab.1 = str "single") && bool_decide (ab.2 = str "word")
    then Some 1 else None
  end.

Definition stated_word_count (ws : list gostring) : option Z :=
  head (omap stated_word_count_of (pairs ws)).

(** Length comparison: the integers of the occurrences "<which> than <N>". *)
Definition than_occurrences (which : gostring) (ws : list gostring) : list Z :=
  omap (λ t : gostring * gostring * gostring,
          if bool_decide (t.1.1 = which) && bool_decide (t.1.2 = str "than")
          then Atoi t.2 else None)
       (triples ws).

(** The last occurrence decides; the arithmetic is that of [int]. *)
Definition spec_min_length (ws : list gostring) : option Z :=
  (λ n, int_wrap (n + 1)) <$> last (than_occurrences (str "longer") ws).

Definition spec_max_length (ws : list gostring) : option Z :=
  (λ n, int_wrap (n - 1)) <$> last (than_occurrences (str "shorter") ws).

(** What one window [prev word next] of the length-comparison loop does to
    the filter map. *)
Definition apply_than (f : gmap gostring any)
    (t : gostring * gostring * gostring) : gmap gostring any :=
  if bool_decide (t.1.2 = str "than")
  then match Atoi t.2 with
       | Some n =>
         if bool_decide (t.1.1 = str "longer")
         then <[k_min_length := VInt (int_wrap (n + 1))]> f
         else if bool_decide (t.1.1 = str "shorter")
         then <[k_max_length := VInt (int_wrap (n - 1))]> f
         else f
       | None => f
       end
  else f.

(** Character containment. *)

(** Where a substring first occurs. *)
Definition find_sub (s sub : gostring) : option nat :=
  let k := strings_Index s sub in
  if 0 <=? k then Some (Z.to_nat k) else None.

(** The text after the first "containing", else after the first "contains". *)
Definition after_keyword (lower : gostring) : option gostring :=
  match find_sub lower (str "containing") with
  | Some k => Some (drop (k + 10) lower)
  | None =>
    match find_sub lower (str "contains") with
    | Some k => Some (drop (k + 8) lower)
    | None => None
    end
  end.

Definition one_character_last_word (words : list gostring) : option gostring :=
  match last words with
  | Some w => if bool_decide (length (runes w) = 1%nat) then Some w else None
  | None => None
  end.

(** After the first "letter " of the remainder: the first character that is
    not white space.  Without "letter ": the last token, if it is one
    character. *)
Definition spec_contains_character (lower : gostring) (words : list gostring)
  : option gostring :=
  rem ← after_keyword lower;
  match find_sub rem (str "letter ") with
  | Some j =>
    EncodeRune <$> head (List.filter (λ r, negb (unicode_IsSpace r))
                                     (runes (drop (j + 7) rem)))
  | None => one_character_last_word words
  end.

(** As the specification words it: the first character after "letter ",
    whatever it is. *)
Definition stated_contains_character (lower : gostring) (words : list gostring)
  : option gostring :=
  rem ← after_keyword lower;
  match find_sub rem (str "letter ") with
  | Some j =>
    match head (runes (drop (j + 7) rem)) with
    | Some r => Some (EncodeRune r)
    | None => one_character_last_word words
    end
  | None => one_character_last_word words
  end.


(** The filter map the four heuristics add up to. *)
Definition put_filter (key : gostring) (val : option any)
    (f : gmap gostring any) : gmap gostring any :=
  match val with
  | Some v => <[key := v]> f
  | None => f
  end.

Definition spec_filters (lower : gostring) (words : list gostring)
  : gmap gostring any :=
  put_filter k_contains_character (VString <$> spec_contains_character lower words)
    (put_filter k_max_length (VInt <$> spec_max_length words)
       (put_filter k_min_length (VInt <$> spec_min_length words)
          (put_filter k_word_count (VInt <$> spec_word_count words)
             (put_filter k_is_palindrome
                (if strings_Contains lower (str "palindrom")
                 then Some (VBool true) else None) ∅)))).

(** *** Sample inputs *)

(** U+00E9, "e" with an acute accent, in UTF-8. *)
Definition e_acute : gostring := [byte_of 195; byte_of 169].

Definition latin1_properties : gostring → Properties :=
  ComputeProperties latin1_IsLetter latin1_IsDigit latin1_ToLower.

Definition sample (value : gostring) : StringResource :=
  new_resource (latin1_properties value) value 0.

Definition sample_store : gmap gostring StringResource :=
  <[str "racecar" := sample (str "racecar")]>
    (<[str "hello world" := sample (str "hello world")]> ∅).

Definition sample_order : list StringResource :=
  [sample (str "racecar"); sample (str "hello world")].

Definition sample_filters : gmap gostring any :=
  <[k_is_palindrome := VBool true]> (<[k_word_count := VInt 1]> ∅).

Definition sample_entries : list (gostring * any) :=
  [(k_is_palindrome, VBool true); (k_word_count, VInt 1)].

(** [GET /strings/list?is_palindrome=true&word_count=1] *)
Definition sample_query : ListQuery :=
  {| q_is_palindrome := str "true"; q_min_length := []; q_max_length := [];
     q_word_count := str "1"; q_contains_character := [];
     q_limit := []; q_offset := [] |}.

(** * The rest of the service *)

(** ** main.go: the operations of InMemoryStore

    The store is the map [s.store]; every method returns the map it leaves
    behind where it writes.  The mutex is not modelled: each method runs
    under the lock from start to end. *)

Definition NewInMemoryStore : gmap gostring StringResource := ∅.

(** [Create]: the error is always [nil]. *)
Definition InMemoryStore_Create (store : gmap gostring StringResource)
    (sr : StringResource) : gmap gostring StringResource * option gostring :=
  (<[Value sr := sr]> store, None).

(** [Get]: the resource, or the error. *)
Definition InMemoryStore_Get (store : gmap gostring StringResource)
    (value : gostring) : StringResource + gostring :=
  match store !! value with
  | Some res => inl res
  | None => inr (str "string not found")
  end.

Definition InMemoryStore_Delete (store : gmap gostring StringResource)
    (value : gostring) : gmap gostring StringResource * option gostring :=
  match store !! value with
  | None => (store, Some (str "string not found"))
  | Some _ => (delete value store, None)
  end.

Definition InMemoryStore_Exists (store : gmap gostring StringResource)
    (value : gostring) : bool :=
  bool_decide (is_Some (store !! value)).

(** The part of [List] after the filtering loop. *)
Definition paginate (allResults : list StringResource) (limit offset : Z)
  : option (list StringResource * Z) :=
  let totalCount := Z.of_nat (length allResults) in
  let start := offset in
  let end_ := int_wrap (offset + limit) in
  if start >? totalCount then Some ([], totalCount)
  else
    let end_ := if end_ >? totalCount then totalCount else end_ in
    paginatedResults ← slice allResults start end_;
    Some (paginatedResults, totalCount).

(** The helpers of the SQLite store that turn a boolean into a column
    value and back. *)
Definition boolToInt (b : bool) : Z := if b then 1 else 0.

Definition intToBool (i : Z) : bool := negb (i =? 0).

(** ** Package net/url and the path helpers *)

(** [strings.TrimPrefix] *)
Definition strings_TrimPrefix (s prefix : gostring) : gostring :=
  if has_prefix prefix s then drop (length prefix) s else s.

Definition ishex (c : ascii) : bool :=
  in_range 48 57 c || in_range 97 102 c || in_range 65 70 c.

Definition unhex (c : ascii) : Z :=
  if in_range 48 57 c then byteZ c - 48
  else if in_range 97 102 c then byteZ c - 97 + 10
  else if in_range 65 70 c then byteZ c - 65 + 10
  else 0.

(** [url.PathUnescape]: every "%XY" with two hexadecimal digits becomes the
    byte it stands for; a "%" without them is an error ([None]); every
    other byte, "+" included, is kept. *)
Fixpoint url_PathUnescape (s : gostring) : option gostring :=
  match s with
  | [] => Some []
  | c :: t =>
    if bool_decide (c = "%"%char) then
      match t with
      | h1 :: h2 :: t' =>
        if ishex h1 && ishex h2
        then cons (byte_of (Z.lor (Z.shiftl (unhex h1) 4) (unhex h2)))
               <$> url_PathUnescape t'
        else None
      | _ => None
      end
    else cons c <$> url_PathUnescape t
  end.

(** ** handlers.go: the HTTP handlers

    A handler is a function of what it reads from the request and of the
    store the [Handler] holds (the in-memory one), to the response it
    writes and the store it leaves.  Of the response the status code and
    the JSON value are kept; headers and log lines are not. *)

Inductive Body :=
| NoBody
| PlainText (text : gostring)
| ErrorResponse (Status : Z) (Error Message : gostring)
| Resource (resource : StringResource)
| ListResponse (Data : list StringResource) (Count : Z)
    (FiltersApplied : gmap gostring any)
| NaturalLanguageResponse (Data : list StringResource) (Count : Z)
    (Original : gostring) (ParsedFilters : gmap gostring any).

Record HTTPResponse := { StatusCode : Z; ResponseBody : Body }.

Definition writeJSON (status : Z) (data : Body) : HTTPResponse :=
  {| StatusCode := status; ResponseBody := data |}.

Definition writeError (status : Z) (errorType message : gostring) : HTTPResponse :=
  writeJSON status (ErrorResponse status errorType message).

(** A response written by [writeError]: the error object repeats the
    status. *)
Definition is_error_body (resp : HTTPResponse) : Prop :=
  ∃ errorType message,
    ResponseBody resp = ErrorResponse (StatusCode resp) errorType message.

(** [http.NotFound] *)
Definition http_NotFound : HTTPResponse :=
  {| StatusCode := 404; ResponseBody := PlainText (str "404 page not found") |}.

Definition MethodGet : gostring := str "GET".
Definition MethodPost : gostring := str "POST".
Definition MethodDelete : gostring := str "DELETE".

Section Server.

(** Package unicode's [IsLetter], [IsDigit] and [ToLower]. *)
Variable unicode_IsLetter unicode_IsDigit : Z → bool.
Variable unicode_ToLower : Z → Z.

(** [CreateString].  [decoded] is what decoding the JSON body gives: the
    text of the error, or the field [Value] of the request; [now] is
    [time.Now().UTC()]. *)
Definition CreateString (method : gostring) (decoded : gostring + gostring)
    (now : Z) (store : gmap gostring StringResource)
  : HTTPResponse * gmap gostring StringResource :=
  if negb (bool_decide (method = MethodPost))
  then (writeError 405 (str "Method Not Allowed") (str "Only POST is allowed"), store)
  else
    match decoded with
    | inl err =>
      (writeError 400 (str "Bad Request") (str "Invalid JSON: " ++ err), store)
    | inr value =>
      if bool_decide (value = [])
      then (writeError 400 (str "Bad Request")
              (str "Missing required field: value"), store)
      else if InMemoryStore_Exists store value
      then (writeError 409 (str "Conflict") (str "String already exists"), store)
      else
        let props :=
          ComputeProperties unicode_IsLetter unicode_IsDigit unicode_ToLower value in
        let resource :=
          {| ID := SHA256Hash props; Value := value; Props := props;
             CreatedAt := now |} in
        match InMemoryStore_Create store resource with
        | (store', Some err) =>
          (writeError 500 (str "Internal Server Error") err, store')
        | (store', None) => (writeJSON 201 (Resource resource), store')
        end
    end.

(** [GetString]; [path] is [r.URL.Path]. *)
Definition GetString (method path : gostring)
    (store : gmap gostring StringResource) : HTTPResponse :=
  if negb (bool_decide (method = MethodGet))
  then writeError 405 (str "Method Not Allowed") (str "Only GET is allowed")
  else
    let path' := strings_TrimPrefix path (str "/strings/") in
    if bool_decide (path' = []) || bool_decide (path' = path)
    then writeError 400 (str "Bad Request") (str "Missing string value in path")
    else
      match url_PathUnescape path' with
      | None => writeError 400 (str "Bad Request") (str "Invalid URL encoding")
      | Some stringValue =>
        match InMemoryStore_Get store stringValue with
        | inr _ => writeError 404 (str "Not Found") (str "String not found")
        | inl resource => writeJSON 200 (Resource resource)
        end
      end.

(** [DeleteString] *)
Definition DeleteString (method path : gostring)
    (store : gmap gostring StringResource)
  : HTTPResponse * gmap gostring StringResource :=
  if negb (bool_decide (method = MethodDelete))
  then (writeError 405 (str "Method Not Allowed") (str "Only DELETE is allowed"),
        store)
  else
    let path' := strings_TrimPrefix path (str "/strings/") in
    if bool_decide (path' = []) || bool_decide (path' = path)
    then (writeError 400 (str "Bad Request") (str "Missing string value in path"),
          store)
    else
      match url_PathUnescape path' with
      | None =>
        (writeError 400 (str "Bad Request") (str "Invalid URL encoding"), store)
      | Some stringValue =>
        match InMemoryStore_Delete store stringValue with
        | (store', Some _) =>
          (writeError 404 (str "Not Found") (str "String not found"), store')
        | (store', None) => ({| StatusCode := 204; ResponseBody := NoBody |}, store')
        end
      end.

(** [ListStrings]: [order] and [visit] are the visiting orders of the call
    of [List]; the result is [None] when the handler panics. *)
Definition ListStrings (method : gostring) (q : ListQuery)
    (order : list StringResource) (visit : nat → list (gostring * any))
  : option HTTPResponse :=
  if negb (bool_decide (method = MethodGet))
  then Some (writeError 405 (str "Method Not Allowed") (str "Only GET is allowed"))
  else
    match ListStrings_request q with
    | BadRequest message => Some (writeError 400 (str "Bad Request") message)
    | CallList filters limit offset =>
      '(data, count) ← List order visit limit offset;
      Some (writeJSON 200 (ListResponse data count filters))
    end.

(** [FilterByNaturalLanguage]: [query] is [r.URL.Query().Get("query")]. *)
Definition FilterByNaturalLanguage (method query : gostring)
    (order : list StringResource) (visit : nat → list (gostring * any))
  : option HTTPResponse :=
  if negb (bool_decide (method = MethodGet))
  then Some (writeError 405 (str "Method Not Allowed") (str "Only GET is allowed"))
  else if bool_decide (query = [])
  then Some (writeError 400 (str "Bad Request")
               (str "Missing required query parameter: query"))
  else
    '(filters, err) ← parseNaturalLanguageQuery unicode_ToLower query;
    match err with
    | Some e =>
      Some (writeError 400 (str "Bad Request") (str "Unable to parse query: " ++ e))
    | None =>
      let limit := 25 in
      let offset := 0 in
      '(data, count) ← List order visit limit offset;
      Some (writeJSON 200 (NaturalLanguageResponse data count query filters))
    end.

(** [HandleStringValue] *)
Definition HandleStringValue (method path : gostring)
    (store : gmap gostring StringResource)
  : HTTPResponse * gmap gostring StringResource :=
  if bool_decide (path = str "/strings/list")
     || bool_decide (path = str "/strings/filter-by-natural-language")
  then (http_NotFound, store)
  else if bool_decide (method = MethodGet)
  then (GetString method path store, store)
  else if bool_decide (method = MethodDelete)
  then DeleteString method path store
  else (writeError 405 (str "Method Not Allowed")
          (str "Only GET and DELETE are allowed for this path"), store).

(** A call of one of the handlers that can write to the store. *)
Inductive Request :=
| CallCreateString (method : gostring) (decoded : gostring + gostring) (now : Z)
| CallDeleteString (method path : gostring)
| CallHandleStringValue (method path : gostring).

Definition serve (store : gmap gostring StringResource) (req : Request)
  : HTTPResponse * gmap gostring StringResource :=
  match req with
  | CallCreateString method decoded now => CreateString method decoded now store
  | CallDeleteString method path => DeleteString method path store
  | CallHandleStringValue method path => HandleStringValue method path store
  end.

(** The store after a sequence of calls, starting from a new one. *)
Definition run (reqs : list Request) : gmap gostring StringResource :=
  foldl (λ store req, (serve store req).2) NewInMemoryStore reqs.

(** Every entry of the store is filed under its own value and carries the
    properties computed from it, with the hash as its ID. *)
Definition store_ok (store : gmap gostring StringResource) : Prop :=
  map_Forall
    (λ key res,
       Value res = key
       ∧ Props res
         = ComputeProperties unicode_IsLetter unicode_IsDigit unicode_ToLower key
       ∧ ID res = SHA256Hash (Props res))
    store.

End Server.

(** What [ListStrings] lets through to the store: a boolean, a
    non-negative [int], or a string of one character, under its own name. *)
Definition validated_filter (key : gostring) (val : any) : Prop :=
  (key = k_is_palindrome ∧ ∃ b, val = VBool b)
  ∨ (key ∈ [k_min_length; k_max_length; k_word_count]
     ∧ ∃ n, val = VInt n ∧ 0 <= n <= max_int)
  ∨ (key = k_contains_character
     ∧ ∃ c, val = VString c ∧ length (runes c) = 1%nat).

(** The digits [hex.EncodeToString] writes. *)
Definition lower_hex : gostring := str "0123456789abcdef".

(** [GET /strings/list?min_length=5&max_length=3]: the filters, and an order
    in which [matchesFilters] may visit them. *)
Definition narrow_filters : gmap gostring any :=
  <[k_min_length := VInt 5]> (<[k_max_length := VInt 3]> ∅).

Definition narrow_entries : list (gostring * any) :=
  [(k_min_length, VInt 5); (k_max_length, VInt 3)].

(** * Proofs *)

(** ** The filter names are pairwise distinct *)

Ltac key_discriminate :=
  match goal with
  | H : @eq gostring ?a ?b |- _ =>
    solve [exfalso; vm_compute in H; discriminate H]
  end.

Ltac split_keys :=
  repeat (case_bool_decide; subst; try key_discriminate; try congruence;
          simpl in *).

(** ** The predicate evaluator *)

Lemma check_filter_typed res key val :
  filter_type_ok key val = true → is_Some (check_filter res key val).
Proof.
  unfold filter_type_ok, check_filter. intros Hty.
  split_keys; destruct val; try discriminate; eauto.
Qed.

Lemma check_filter_ill_typed res key val :
  filter_type_ok key val = false → check_filter res key val = None.
Proof.
  unfold filter_type_ok, check_filter. intros Hty.
  split_keys; destruct val; try discriminate; eauto.
Qed.

Lemma matchesFilters_typed res entries :
  Forall (λ kv, filter_type_ok kv.1 kv.2 = true) entries →
  matchesFilters res entries
  = Some (bool_decide (Forall (entry_holds res) entries)).
Proof.
  induction 1 as [|[key val] entries Hty _ IH]; cbn [matchesFilters].
  - reflexivity.
  - simpl in Hty. destruct (check_filter_typed res key val Hty) as [b Hb]. rewrite Hb.
    destruct b.
    + rewrite IH. f_equal. apply bool_decide_ext.
      rewrite Forall_cons. unfold entry_holds at 2. simpl. tauto.
    + rewrite bool_decide_eq_false_2; [done|].
      rewrite Forall_cons. unfold entry_holds at 1. simpl. rewrite Hb.
      intros [? _]. discriminate.
Qed.

Lemma range_map_elem {V} (m : gmap gostring V) entries key val :
  range_map m entries → (key, val) ∈ entries ↔ m !! key = Some val.
Proof.
  unfold range_map. intros ->. apply elem_of_map_to_list.
Qed.

Lemma range_map_typed f entries :
  well_typed f → range_map f entries →
  Forall (λ kv, filter_type_ok kv.1 kv.2 = true) entries.
Proof.
  intros Hf Hr. apply Forall_forall. intros [key val] Hin.
  apply (Hf key val). by apply (range_map_elem f entries).
Qed.

Lemma range_map_holds res f entries :
  range_map f entries →
  Forall (entry_holds res) entries
  ↔ map_Forall (λ key val, check_filter res key val = Some true) f.
Proof.
  intros Hr. rewrite Forall_forall. split.
  - intros H key val Hk. apply (H (key, val)). by apply (range_map_elem f entries).
  - intros H [key val] Hin. apply H. by apply (range_map_elem f entries).
Qed.

Lemma lookup_typed f key val :
  well_typed f → f !! key = Some val → filter_type_ok key val = true.
Proof. intros Hf Hk. exact (Hf key val Hk). Qed.

Lemma satisfies_checks res f :
  well_typed f →
  satisfies (Props res) f
  ↔ map_Forall (λ key val, check_filter res key val = Some true) f.
Proof.
  intros Hf. split.
  - intros (Hp & Hmin & Hmax & Hw & Hc) key val Hk.
    pose proof (lookup_typed f key val Hf Hk) as Hty.
    unfold sat_is_palindrome, sat_min_length, sat_max_length, sat_word_count,
      sat_contains_character in *.
    unfold filter_type_ok in Hty. unfold check_filter.
    split_keys; try rewrite Hk in *; destruct val; try discriminate;
      try reflexivity; f_equal.
    + by apply bool_decide_eq_true_2.
    + apply negb_true_iff, Z.ltb_ge. lia.
    + apply negb_true_iff. rewrite Z.gtb_ltb. apply Z.ltb_ge. lia.
    + by apply bool_decide_eq_true_2.
    + apply bool_decide_eq_true_2. by apply elem_of_dom.
  - intros H.
    unfold satisfies, sat_is_palindrome, sat_min_length, sat_max_length,
      sat_word_count, sat_contains_character.
    repeat split; case_match; try done; case_match; try done;
      match goal with Hk : f !! _ = Some _ |- _ => specialize (H _ _ Hk) end;
      unfold check_filter in H; revert H; split_keys; intros Hb;
      try (by apply elem_of_dom);
      injection Hb as Hb; apply negb_true_iff in Hb;
      try rewrite Z.gtb_ltb in Hb; apply Z.ltb_ge in Hb; lia.
Qed.

Lemma matchesFilters_decides res f entries :
  well_typed f → range_map f entries →
  matchesFilters res entries = Some (bool_decide (satisfies (Props res) f)).
Proof.
  intros Hf Hr.
  rewrite matchesFilters_typed by by eapply range_map_typed.
  f_equal. apply bool_decide_ext.
  rewrite (range_map_holds res f entries Hr). symmetry. by apply satisfies_checks.
Qed.

(** C3.  For a typed FilterSet, whatever order the map is visited in, the
    evaluator returns, and it returns true exactly when the properties
    satisfy every filter present: equality for is_palindrome and word_count,
    [Length >= min_length], [Length <= max_length], and for
    contains_character membership of the given string among the keys of the
    frequency map.  Keys outside the five names are ignored. *)
Theorem matchesFilters_spec res f entries :
  well_typed f → range_map f entries →
  matchesFilters res entries = Some (bool_decide (satisfies (Props res) f)).
Proof.
  intros Hf Hr.
  rewrite matchesFilters_typed by by eapply range_map_typed.
  f_equal. apply bool_decide_ext.
  rewrite (range_map_holds res f entries Hr). symmetry. by apply satisfies_checks.
Qed.

(** An ill-typed value under a recognised name makes the evaluator panic in
    the visiting orders that reach it, for instance when it comes first. *)
Lemma matchesFilters_panics res f key val :
  f !! key = Some val → filter_type_ok key val = false →
  ∃ entries, range_map f entries ∧ matchesFilters res entries = None.
Proof.
  intros Hk Hty. exists ((key, val) :: map_to_list (delete key f)). split.
  - unfold range_map. by apply map_to_list_delete.
  - cbn [matchesFilters]. by rewrite check_filter_ill_typed.
Qed.


(** ** The query executor *)

Lemma int_wrap_id z : is_int z → int_wrap z = z.
Proof.
  unfold is_int, int_wrap, min_int, max_int. intros H.
  rewrite Z.mod_small; lia.
Qed.

Lemma collect_matching f visit order k acc :
  well_typed f → (∀ k, range_map f (visit k)) →
  collect visit k order acc = Some (acc ++ matching f order).
Proof.
  intros Hf Hv. revert k acc.
  induction order as [|res order IH]; intros k acc; cbn [collect].
  - by rewrite app_nil_r.
  - rewrite (matchesFilters_decides res f (visit k) Hf (Hv k)).
    unfold matching. case_bool_decide.
    + rewrite filter_cons_True by done. rewrite IH.
      unfold matching. by rewrite <- app_assoc.
    + rewrite filter_cons_False by done. by rewrite IH.
Qed.

Lemma matching_length_order f order order' :
  order ≡ₚ order' → length (matching f order) = length (matching f order').
Proof. unfold matching. intros H. by rewrite H. Qed.

Lemma slice_in_range {A} (a : list A) (start end_ : Z) :
  0 <= start <= end_ → end_ <= Z.of_nat (length a) →
  slice a start end_ = Some (sublist start end_ a).
Proof.
  intros H1 H2. unfold slice, sublist.
  rewrite !andb_true_intro; [done|].
  split; [apply andb_true_intro; split|]; apply Z.leb_le; lia.
Qed.

Lemma sublist_length {A} (a : list A) (lo hi : Z) :
  0 <= lo <= hi → hi <= Z.of_nat (length a) →
  Z.of_nat (length (sublist lo hi a)) = hi - lo.
Proof.
  intros H1 H2. unfold sublist. rewrite length_take, length_drop. lia.
Qed.


(** ** UTF-8 decoding *)

Ltac bools :=
  repeat match goal with
  | H : (_ && _) = true |- _ => apply andb_true_iff in H; destruct H
  | H : (_ || _) = false |- _ => apply orb_false_iff in H; destruct H
  | H : negb _ = true |- _ => apply negb_true_iff in H
  | H : negb _ = false |- _ => apply negb_false_iff in H
  | H : (_ <? _) = true |- _ => apply Z.ltb_lt in H
  | H : (_ <? _) = false |- _ => apply Z.ltb_ge in H
  | H : (_ <=? _) = true |- _ => apply Z.leb_le in H
  | H : (_ <=? _) = false |- _ => apply Z.leb_gt in H
  | H : (_ =? _) = true |- _ => apply Z.eqb_eq in H
  | H : (_ =? _) = false |- _ => apply Z.eqb_neq in H
  end.

Lemma DecodeRune_width b t r w :
  DecodeRune (b :: t) = (r, w) → (1 <= w <= S (length t))%nat.
Proof.
  unfold DecodeRune. intros H.
  repeat case_match; simplify_eq; simpl; lia.
Qed.

(** A rune decoded from more than one byte has no ASCII byte in it, and an
    ASCII byte decodes to itself. *)
Lemma DecodeRune_bytes b t r w :
  DecodeRune (b :: t) = (r, w) →
  (w = 1%nat ∧ (byteZ b < 128 → r = byteZ b))
  ∨ (∀ x, x ∈ take w (b :: t) → 128 <= byteZ x).
Proof.
  unfold DecodeRune, in_range. intros H.
  repeat case_match; simplify_eq; bools; try (left; split; [done|lia]);
    right; intros x Hx; simpl in Hx; set_unfold in Hx;
    repeat (destruct Hx as [->|Hx]); try subst x; try done; lia.
Qed.

Lemma range_fuel_enough f1 f2 s :
  (length s <= f1)%nat → (length s <= f2)%nat →
  range_fuel f1 s = range_fuel f2 s.
Proof.
  revert f2 s. induction f1 as [|f1 IH]; intros f2 s H1 H2.
  - destruct s; [|simpl in H1; lia]. by destruct f2.
  - destruct s as [|b t]; [by destruct f2|].
    destruct f2 as [|f2]; [simpl in H2; lia|].
    cbn [range_fuel]. destruct (DecodeRune (b :: t)) as [r w] eqn:E.
    pose proof (DecodeRune_width _ _ _ _ E) as Hw.
    f_equal. apply IH; rewrite length_drop; simpl in *; lia.
Qed.

Lemma range_string_nil : range_string [] = [].
Proof. reflexivity. Qed.

Lemma range_string_cons b t :
  range_string (b :: t)
  = ((DecodeRune (b :: t)).1, take (DecodeRune (b :: t)).2 (b :: t))
      :: range_string (drop (DecodeRune (b :: t)).2 (b :: t)).
Proof.
  unfold range_string. cbn [length range_fuel].
  destruct (DecodeRune (b :: t)) as [r w] eqn:E.
  pose proof (DecodeRune_width _ _ _ _ E) as Hw. cbn [fst snd].
  f_equal. apply range_fuel_enough; rewrite ?length_drop; simpl; lia.
Qed.

(** Induction along the decoding. *)
Lemma range_string_ind (P : gostring → list (Z * gostring) → Prop) :
  P [] [] →
  (∀ b t r w, DecodeRune (b :: t) = (r, w) → (1 <= w <= S (length t))%nat →
     P (drop w (b :: t)) (range_string (drop w (b :: t))) →
     P (b :: t) ((r, take w (b :: t)) :: range_string (drop w (b :: t)))) →
  ∀ s, P s (range_string s).
Proof.
  intros Hnil Hcons s.
  assert (H : ∀ n s, (length s <= n)%nat → P s (range_string s));
    [|by apply (H (length s))].
  clear s. induction n as [|n IH]; intros s Hn.
  - destruct s; [exact Hnil|simpl in Hn; lia].
  - destruct s as [|b t]; [exact Hnil|].
    rewrite range_string_cons.
    destruct (DecodeRune (b :: t)) as [r w] eqn:E.
    pose proof (DecodeRune_width _ _ _ _ E) as Hw. cbn [fst snd].
    apply Hcons; [done..|]. apply IH. rewrite length_drop. simpl in *. lia.
Qed.

Lemma range_string_concat s : concat (range_string s).*2 = s.
Proof.
  apply (range_string_ind (λ s cs, concat cs.*2 = s)); [done|].
  intros b t r w _ _ IH. rewrite fmap_cons, concat_cons. cbn [snd].
  rewrite IH. apply take_drop.
Qed.

(** Every ASCII byte of a string is a rune of its own. *)
Lemma range_string_ascii s a :
  a ∈ s → byteZ a < 128 → (byteZ a, [a]) ∈ range_string s.
Proof.
  revert a.
  apply (range_string_ind
           (λ s cs, ∀ a, a ∈ s → byteZ a < 128 → (byteZ a, [a]) ∈ cs)).
  - intros a Ha. by apply elem_of_nil in Ha.
  - intros b t r w E Hw IH a Ha Hlt.
    rewrite <- (take_drop w (b :: t)) in Ha. apply elem_of_app in Ha.
    destruct Ha as [Ha|Ha]; [|apply elem_of_cons; right; by apply IH].
    destruct (DecodeRune_bytes _ _ _ _ E) as [[-> Hr]|Hall].
    + simpl in Ha. apply list_elem_of_singleton in Ha. subst a.
      rewrite Hr by done. apply elem_of_cons. by left.
    + specialize (Hall a Ha). lia.
Qed.

Lemma range_string_chunk_nonempty s c : c ∈ range_string s → c.2 ≠ [].
Proof.
  revert c. apply (range_string_ind (λ s cs, ∀ c, c ∈ cs → c.2 ≠ [])).
  - intros c Hc. by apply elem_of_nil in Hc.
  - intros b t r w E Hw IH c Hc. apply elem_of_cons in Hc.
    destruct Hc as [->|Hc]; [|by apply IH].
    simpl. destruct w; [lia|done].
Qed.

(** ** Package strings *)

Lemma has_prefix_spec sub s :
  has_prefix sub s = true ↔ ∃ k, s = sub ++ k.
Proof.
  revert s. induction sub as [|a sub IH]; intros s; simpl.
  - split; [eauto|done].
  - destruct s as [|b s].
    + split; [done|]. intros [k Hk]. discriminate.
    + rewrite andb_true_iff, bool_decide_eq_true, IH. split.
      * intros [-> [k ->]]. eauto.
      * intros [k Hk]. simplify_eq. eauto.
Qed.

Lemma index_from_spec i s sub :
  index_from i s sub = -1
  ∨ ∃ n : nat, index_from i s sub = i + Z.of_nat n
      ∧ (n + length sub <= length s)%nat
      ∧ ∃ k, drop n s = sub ++ k.
Proof.
  revert i. induction s as [|b s IH]; intros i; simpl.
  - destruct (has_prefix sub []) eqn:E; [|by left].
    right. exists 0%nat. apply has_prefix_spec in E as [k Hk].
    symmetry in Hk. apply app_eq_nil in Hk as [-> ->].
    split; [lia|]. split; [done|]. by exists [].
  - destruct (has_prefix sub (b :: s)) eqn:E.
    + right. exists 0%nat. apply has_prefix_spec in E as [k Hk].
      split; [lia|]. split; [|by exists k].
      pose proof (f_equal length Hk) as HL. rewrite length_app in HL.
      simpl in *. lia.
    + destruct (IH (i + 1)) as [->|(n & -> & Hn & Hk)]; [by left|].
      right. exists (S n). split; [lia|]. split; [simpl; lia|done].
Qed.

Lemma strings_Index_range s sub :
  strings_Index s sub = -1 ∨ 0 <= strings_Index s sub.
Proof.
  unfold strings_Index.
  destruct (index_from_spec 0 s sub) as [->|(n & -> & _)]; [by left|right; lia].
Qed.

Lemma find_sub_Some s sub n :
  find_sub s sub = Some n →
  strings_Index s sub = Z.of_nat n
  ∧ (n + length sub <= length s)%nat ∧ ∃ k, drop n s = sub ++ k.
Proof.
  unfold find_sub, strings_Index.
  destruct (index_from_spec 0 s sub) as [->|(m & -> & Hm & Hk)]; [done|].
  case_match; [|done]. intros [= <-].
  replace (Z.to_nat (0 + Z.of_nat m)) with m by lia. split; [lia|done].
Qed.

Lemma find_sub_None s sub :
  find_sub s sub = None → strings_Index s sub = -1.
Proof.
  unfold find_sub.
  destruct (strings_Index_range s sub) as [->|H]; [done|].
  case_match; [done|]. bools. lia.
Qed.

Lemma find_sub_elem s sub n a :
  find_sub s sub = Some n → a ∈ sub → a ∈ s.
Proof.
  intros (_ & _ & k & Hk)%find_sub_Some Ha.
  rewrite <- (take_drop n s), Hk. set_solver.
Qed.

Lemma fields_of_nonempty cs cur :
  is_Some cur ∨ (∃ c, c ∈ cs ∧ unicode_IsSpace c.1 = false) →
  fields_of cs cur ≠ [].
Proof.
  revert cur. induction cs as [|[r bs] cs IH]; intros cur H; simpl.
  - destruct H as [[w ->]|(c & Hc & _)]; [done|]. by apply elem_of_nil in Hc.
  - destruct (unicode_IsSpace r) eqn:E.
    + destruct cur as [w|]; [done|]. apply IH. right.
      destruct H as [[w Hw]|(c & Hc & Hsp)]; [done|].
      apply elem_of_cons in Hc as [->|Hc]; [simpl in Hsp; congruence|eauto].
    + apply IH. left. eauto.
Qed.

(** A string in which a word with an ASCII letter occurs has a field. *)
Lemma strings_Fields_nonempty s sub n a :
  find_sub s sub = Some n → a ∈ sub → byteZ a < 128 →
  unicode_IsSpace (byteZ a) = false →
  strings_Fields s ≠ [].
Proof.
  intros Hf Ha Hlt Hsp. apply fields_of_nonempty. right.
  exists (byteZ a, [a]). split; [|done].
  apply range_string_ascii; [|done]. by eapply find_sub_elem.
Qed.

Lemma index_at_last {A} (pre rest : list A) :
  pre ≠ [] → index_at (pre ++ rest) (Z.of_nat (length pre) - 1) = last pre.
Proof.
  intros Hne. unfold index_at.
  destruct pre as [|x pre _] using rev_ind; [done|].
  rewrite length_app. simpl. case_match; bools; [|lia].
  replace (Z.to_nat (Z.of_nat (length pre + 1) - 1)) with (length pre) by lia.
  rewrite <- app_assoc. cbn [app].
  rewrite list_lookup_middle by done. by rewrite last_snoc.
Qed.

Lemma index_at_next {A} (pre : list A) w rest :
  index_at (pre ++ w :: rest) (Z.of_nat (length pre) + 1) = head rest.
Proof.
  unfold index_at. case_match; bools; [|lia].
  replace (Z.to_nat (Z.of_nat (length pre) + 1)) with (S (length pre)) by lia.
  rewrite cons_middle, app_assoc.
  rewrite lookup_app_r; rewrite length_app; simpl; [|lia].
  replace (S (length pre) - (length pre + 1))%nat with 0%nat by lia.
  by destruct rest.
Qed.

(** ** The loops of the parser *)

Lemma omap_cons_match {A B} (g : A → option B) x l :
  omap g (x :: l)
  = match g x with Some y => y :: omap g l | None => omap g l end.
Proof. reflexivity. Qed.

Lemma word_count_loop_from words pre p rest f :
  words = pre ++ rest → last pre = Some p →
  word_count_loop words (length pre) rest f
  = Some (put_filter k_word_count
            (VInt <$> head (omap word_count_of (zip (p :: rest) rest))) f).
Proof.
  revert pre p. induction rest as [|w rest IH]; intros pre p -> Hp; [done|].
  assert (Hpre : pre ≠ []) by (by destruct pre).
  assert (Hlen : 0 < Z.of_nat (length pre)) by (destruct pre; [done|simpl; lia]).
  assert (Hnext : word_count_loop (pre ++ w :: rest) (S (length pre)) rest f
                  = Some (put_filter k_word_count
                            (VInt <$> head (omap word_count_of (zip (w :: rest) rest))) f)).
  { replace (S (length pre)) with (length (pre ++ [w])) by (rewrite length_app; simpl; lia).
    apply IH; [by rewrite <- app_assoc|by rewrite last_snoc]. }
  cbn [word_count_loop].
  rewrite index_at_last, Hp by done. cbn [mbind option_bind].
  change (zip (p :: w :: rest) (w :: rest)) with ((p, w) :: zip (w :: rest) rest).
  rewrite omap_cons_match. unfold word_count_of at 1. cbn [fst snd].
  destruct (bool_decide (w = str "word") || bool_decide (w = str "words")) eqn:Ew;
    cbn [andb].
  - rewrite (proj2 (Z.ltb_lt _ _) Hlen).
    destruct (Atoi p) as [n|]; [done|].
    destruct (bool_decide (p = str "single")); [done|]. exact Hnext.
  - exact Hnext.
Qed.

Lemma word_count_loop_spec words f :
  word_count_loop words 0 words f
  = Some (put_filter k_word_count (VInt <$> spec_word_count words) f).
Proof.
  destruct words as [|a t]; [done|].
  cbn [word_count_loop]. rewrite andb_false_r.
  apply (word_count_loop_from (a :: t) [a] a t f); done.
Qed.

Lemma length_loop_from words pre p rest f :
  words = pre ++ rest → last pre = Some p →
  length_loop words (length pre) rest f
  = Some (foldl apply_than f (zip (zip (p :: rest) rest) (tail rest))).
Proof.
  revert pre p f. induction rest as [|w rest IH]; intros pre p f -> Hp; [done|].
  assert (Hpre : pre ≠ []) by (by destruct pre).
  assert (Hlen : 0 < Z.of_nat (length pre)) by (destruct pre; [done|simpl; lia]).
  assert (Hnext : ∀ f', length_loop (pre ++ w :: rest) (S (length pre)) rest f'
                  = Some (foldl apply_than f' (zip (zip (w :: rest) rest) (tail rest)))).
  { intros f'.
    replace (S (length pre)) with (length (pre ++ [w])) by (rewrite length_app; simpl; lia).
    apply IH; [by rewrite <- app_assoc|by rewrite last_snoc]. }
  cbn [length_loop].
  rewrite index_at_last, Hp, index_at_next by done.
  rewrite (proj2 (Z.ltb_lt _ _) Hlen), andb_true_r.
  destruct rest as [|n rest].
  - rewrite length_app. cbn [length].
    replace (Z.of_nat (length pre) <? Z.of_nat (length pre + 1) - 1) with false
      by (symmetry; apply Z.ltb_ge; lia).
    rewrite andb_false_r. by rewrite Hnext.
  - rewrite length_app. cbn [length].
    replace (Z.of_nat (length pre) <? Z.of_nat (length pre + S (S (length rest))) - 1)
      with true by (symmetry; apply Z.ltb_lt; lia).
    rewrite andb_true_r. cbn [head mbind option_bind tail].
    change (zip (zip (p :: w :: n :: rest) (w :: n :: rest)) (n :: rest))
      with ((p, w, n) :: zip (zip (w :: n :: rest) (n :: rest)) rest).
    cbn [foldl]. unfold apply_than at 2. cbn [fst snd].
    destruct (bool_decide (w = str "than")); [|by rewrite Hnext].
    destruct (Atoi n) as [len|]; by rewrite Hnext.
Qed.

Lemma length_loop_fold words f :
  length_loop words 0 words f = Some (foldl apply_than f (triples words)).
Proof.
  destruct words as [|a t]; [done|].
  cbn [length_loop]. rewrite andb_false_r. cbn [andb].
  apply (length_loop_from (a :: t) [a] a t f); done.
Qed.

Lemma key_min_max : k_min_length ≠ k_max_length.
Proof. intros H. key_discriminate. Qed.

Lemma put_filter_commute (k1 k2 : gostring) (v1 v2 : option any) (f : gmap gostring any) :
  k1 ≠ k2 →
  put_filter k1 v1 (put_filter k2 v2 f) = put_filter k2 v2 (put_filter k1 v1 f).
Proof.
  intros Hne. destruct v1, v2; simpl; try done. by apply insert_insert_ne.
Qed.

Lemma insert_put_filter (k : gostring) (v : any) (v' : option any) (f : gmap gostring any) :
  <[k := v]> (put_filter k v' f) = <[k := v]> f.
Proof. destruct v'; simpl; [apply insert_insert_eq|done]. Qed.

Lemma insert_put_filter_ne (k k' : gostring) (v : any) (v' : option any)
    (f : gmap gostring any) :
  k ≠ k' → <[k := v]> (put_filter k' v' f) = put_filter k' v' (<[k := v]> f).
Proof.
  intros Hne. destruct v'; simpl; [|done]. by apply insert_insert_ne.
Qed.

Lemma foldl_apply_than f ts :
  foldl apply_than f ts
  = put_filter k_max_length
      (VInt <$> ((λ n, int_wrap (n - 1)) <$>
         last (omap (λ t : gostring * gostring * gostring,
                       if bool_decide (t.1.1 = str "shorter")
                          && bool_decide (t.1.2 = str "than")
                       then Atoi t.2 else None) ts)))
      (put_filter k_min_length
         (VInt <$> ((λ n, int_wrap (n + 1)) <$>
            last (omap (λ t : gostring * gostring * gostring,
                          if bool_decide (t.1.1 = str "longer")
                             && bool_decide (t.1.2 = str "than")
                          then Atoi t.2 else None) ts)))
         f).
Proof.
  induction ts as [|[[a b] c] ts IH] using rev_ind; [done|].
  rewrite foldl_snoc, IH, !omap_app. cbn [omap list_omap fst snd].
  unfold apply_than. cbn [fst snd].
  destruct (bool_decide (b = str "than")) eqn:Eb;
    [|by rewrite !andb_false_r, !app_nil_r].
  rewrite !andb_true_r.
  destruct (Atoi c) as [n|] eqn:Ec;
    [|by repeat case_bool_decide; rewrite !app_nil_r].
  destruct (bool_decide (a = str "longer")) eqn:Ea.
  - apply bool_decide_eq_true_1 in Ea. subst a.
    rewrite bool_decide_eq_false_2 by (intros H; key_discriminate).
    rewrite app_nil_r, last_snoc. cbn [fmap option_fmap option_map put_filter].
    rewrite (put_filter_commute k_max_length k_min_length) by (symmetry; apply key_min_max).
    rewrite insert_put_filter.
    apply insert_put_filter_ne, key_min_max.
  - rewrite app_nil_r. destruct (bool_decide (a = str "shorter")) eqn:Es.
    + rewrite last_snoc. cbn [fmap option_fmap option_map put_filter].
      by rewrite insert_put_filter.
    + by rewrite app_nil_r.
Qed.

Lemma length_loop_spec words f :
  length_loop words 0 words f
  = Some (put_filter k_max_length (VInt <$> spec_max_length words)
            (put_filter k_min_length (VInt <$> spec_min_length words) f)).
Proof. rewrite length_loop_fold. f_equal. apply foldl_apply_than. Qed.

(** Decoding a rune looks at no byte beyond it when the rune is well formed,
    and an ill-formed first byte stays ill-formed when the bytes after it
    are cut short. *)
Lemma DecodeRune_prefix b t r w t' k :
  DecodeRune (b :: t) = (r, w) → drop w (b :: t) = t' ++ k →
  DecodeRune (take w (b :: t) ++ t') = (r, w).
Proof.
  unfold DecodeRune. intros H. revert t' k.
  repeat case_match; simplify_eq; intros t' k Hd; simpl in Hd;
    destruct t' as [|c1 [|c2 [|c3 t']]]; simpl in *; simplify_eq; try done;
    repeat case_match; simplify_eq; try done; congruence.
Qed.

Lemma range_string_tail c cs s :
  range_string s = c :: cs →
  ∃ b t, s = b :: t ∧ DecodeRune s = (c.1, length c.2)
         ∧ c.2 = take (length c.2) s ∧ drop (length c.2) s = concat cs.*2
         ∧ range_string (drop (length c.2) s) = cs.
Proof.
  destruct s as [|b t]; [done|]. rewrite range_string_cons.
  destruct (DecodeRune (b :: t)) as [r w] eqn:E.
  pose proof (DecodeRune_width _ _ _ _ E) as Hw. cbn [fst snd].
  intros [= <- <-]. exists b, t. cbn [fst snd].
  assert (Hl : length (take w (b :: t)) = w) by (rewrite length_take; simpl; lia).
  rewrite Hl. split; [done|]. split; [done|]. split; [done|].
  split; [|done]. by rewrite range_string_concat.
Qed.

Lemma drop_while_suffix {A} (p : A → bool) l :
  ∃ pre, l = pre ++ drop_while p l.
Proof.
  induction l as [|x l [pre IH]]; [by exists []|]. simpl.
  destruct (p x); [|by exists []]. exists (x :: pre). simpl. by f_equal.
Qed.

Lemma drop_while_snoc {A} (p : A → bool) l c :
  p c = false → drop_while p (l ++ [c]) = drop_while p l ++ [c].
Proof.
  intros Hc. induction l as [|x l IH]; simpl; [by rewrite Hc|].
  by destruct (p x).
Qed.

Lemma drop_while_head {A} (p : A → bool) l c l' :
  drop_while p l = c :: l' → p c = false.
Proof.
  induction l as [|x l IH]; simpl; [done|].
  destruct (p x) eqn:E; [done|]. by intros [= <- _].
Qed.

Lemma trim_right_cons {A} (p : A → bool) c l :
  p c = false →
  ∃ l2 l3, reverse (drop_while p (reverse (c :: l))) = c :: l2 ∧ l = l2 ++ l3.
Proof.
  intros Hc. rewrite reverse_cons, drop_while_snoc by done.
  rewrite reverse_snoc.
  destruct (drop_while_suffix p (reverse l)) as [pre Hpre].
  exists (reverse (drop_while p (reverse l))), (reverse pre). split; [done|].
  rewrite <- reverse_app, <- Hpre. by rewrite reverse_involutive.
Qed.

Lemma head_filter_drop_while (cs : list (Z * gostring)) :
  head (List.filter (λ r, negb (unicode_IsSpace r)) cs.*1)
  = fst <$> head (drop_while is_space_chunk cs).
Proof.
  induction cs as [|[r bs] cs IH]; [done|]. simpl.
  unfold is_space_chunk at 1. cbn [fst].
  by destruct (unicode_IsSpace r).
Qed.

(** [strings.TrimSpace] of a string that is not all white space begins with
    the string's first rune that is not white space. *)
Lemma strings_TrimSpace_first s :
  match head (List.filter (λ r, negb (unicode_IsSpace r)) (runes s)) with
  | Some r => strings_TrimSpace s ≠ [] ∧ head (runes (strings_TrimSpace s)) = Some r
  | None => strings_TrimSpace s = []
  end.
Proof.
  unfold runes at 1. rewrite head_filter_drop_while. unfold strings_TrimSpace.
  destruct (drop_while_suffix is_space_chunk (range_string s)) as [pre Hpre].
  destruct (drop_while is_space_chunk (range_string s)) as [|c rest] eqn:Ed;
    [done|]. cbn [head fmap option_fmap option_map].
  pose proof (drop_while_head _ _ _ _ Ed) as Hc.
  destruct (trim_right_cons is_space_chunk c rest Hc) as (l2 & l3 & -> & ->).
  assert (Hdec : range_string (concat (c :: l2 ++ l3).*2) = c :: l2 ++ l3).
  { clear Ed. revert Hpre. generalize (c :: l2 ++ l3). intros cs.
    revert s. induction pre as [|x pre IH]; intros s Hs.
    - simpl in Hs. rewrite <- Hs. by rewrite range_string_concat.
    - destruct (range_string_tail x (pre ++ cs) s Hs) as (b & t & _ & _ & _ & _ & Hd).
      by apply (IH (drop (length x.2) s)). }
  destruct (range_string_tail _ _ _ Hdec) as (b & t & Hs & HD & Ht & Hd & _).
  rewrite fmap_cons, concat_cons. rewrite fmap_cons, concat_cons in Hs, HD, Ht, Hd.
  rewrite fmap_app, concat_app in Hs, HD, Ht, Hd.
  rewrite Hs in HD, Ht, Hd.
  pose proof (DecodeRune_prefix b t c.1 (length c.2) (concat l2.*2) (concat l3.*2) HD Hd) as HP.
  rewrite <- Ht in HP.
  assert (Hne : c.2 ≠ []).
  { apply (range_string_chunk_nonempty (concat (c :: l2 ++ l3).*2)).
    rewrite Hdec. apply elem_of_cons. by left. }
  split.
  - destruct (c.2); [done|]. done.
  - unfold runes. destruct (c.2 ++ concat l2.*2) as [|b' t'] eqn:E.
    + destruct (c.2); [done|]. done.
    + rewrite range_string_cons, HP. done.
Qed.

Lemma slice_from_in_range s (n m : nat) :
  (n + m <= length s)%nat →
  slice_from s (Z.of_nat n + Z.of_nat m) = Some (drop (n + m) s).
Proof.
  intros H. unfold slice_from.
  rewrite (proj2 (Z.leb_le 0 _)), (proj2 (Z.leb_le _ _)) by lia.
  cbn [andb]. do 2 f_equal. lia.
Qed.

Lemma index_at_0 {A} (l : list A) : index_at l 0 = head l.
Proof. unfold index_at. simpl. by destruct l. Qed.

Lemma index_at_last_all {A} (l : list A) :
  l ≠ [] → index_at l (Z.of_nat (length l) - 1) = last l.
Proof.
  intros H. rewrite <- (app_nil_r l) at 1. by apply index_at_last.
Qed.

(** What the block does once the remainder after the keyword is known. *)
Lemma contains_tail_spec rem words f :
  words ≠ [] →
  (let letterIndex := strings_Index rem (str "letter ") in
   if negb (letterIndex =? -1) then
     after ← slice_from rem (letterIndex + Z.of_nat (length (str "letter ")));
     let charAfter := strings_TrimSpace after in
     if 0 <? Z.of_nat (length charAfter) then
       r ← index_at (runes charAfter) 0;
       Some (<[k_contains_character := VString (EncodeRune r)]> f)
     else Some f
   else
     lastWord ← index_at words (Z.of_nat (length words) - 1);
     if bool_decide (length (runes lastWord) = 1%nat)
     then Some (<[k_contains_character := VString lastWord]> f)
     else Some f)
  = Some (put_filter k_contains_character
            (VString <$>
               match find_sub rem (str "letter ") with
               | Some j =>
                 EncodeRune <$> head (List.filter (λ r, negb (unicode_IsSpace r))
                                                  (runes (drop (j + 7) rem)))
               | None => one_character_last_word words
               end) f).
Proof.
  intros Hw. cbv zeta.
  destruct (find_sub rem (str "letter ")) as [j|] eqn:Ej.
  - apply find_sub_Some in Ej as (-> & Hj & _).
    replace (Z.of_nat j =? -1) with false by (symmetry; apply Z.eqb_neq; lia).
    cbn [negb]. rewrite slice_from_in_range by done. cbn [mbind option_bind].
    change (length (str "letter ")) with 7%nat.
    pose proof (strings_TrimSpace_first (drop (j + 7) rem)) as HT.
    destruct (head (List.filter _ (runes (drop (j + 7) rem)))) as [r|].
    + destruct HT as [Hne Hr].
      replace (0 <? Z.of_nat (length (strings_TrimSpace (drop (j + 7) rem))))
        with true.
      2:{ symmetry. apply Z.ltb_lt.
          destruct (strings_TrimSpace (drop (j + 7) rem)); [done|simpl; lia]. }
      by rewrite index_at_0, Hr.
    + by rewrite HT.
  - apply find_sub_None in Ej as ->. cbn [Z.eqb negb].
    rewrite index_at_last_all by done. unfold one_character_last_word.
    destruct (last words) as [w|] eqn:El; [|by apply last_None in El].
    cbn [mbind option_bind]. by case_bool_decide.
Qed.

Lemma keyword_has_field lower kw n :
  find_sub lower kw = Some n → "c"%char ∈ kw → strings_Fields lower ≠ [].
Proof.
  intros Hf Hc. by apply (strings_Fields_nonempty lower kw n "c"%char).
Qed.

Lemma contains_block_spec lower f :
  contains_block lower (strings_Fields lower) f
  = Some (put_filter k_contains_character
            (VString <$> spec_contains_character lower (strings_Fields lower)) f).
Proof.
  unfold contains_block, spec_contains_character, after_keyword.
  destruct (find_sub lower (str "containing")) as [k|] eqn:E1.
  - pose proof (keyword_has_field _ _ _ E1 ltac:(vm_compute; set_solver)) as Hw.
    apply find_sub_Some in E1 as (-> & Hk & _).
    replace (Z.of_nat k =? -1) with false by (symmetry; apply Z.eqb_neq; lia).
    cbv beta iota.
    replace (Z.of_nat k =? -1) with false by (symmetry; apply Z.eqb_neq; lia).
    cbn [negb]. rewrite slice_from_in_range by done.
    cbn [mbind option_bind].
    change (length (str "containing")) with 10%nat.
    by apply contains_tail_spec.
  - apply find_sub_None in E1 as ->. change (-1 =? -1) with true.
    cbv beta iota.
    destruct (find_sub lower (str "contains")) as [k|] eqn:E2.
    + pose proof (keyword_has_field _ _ _ E2 ltac:(vm_compute; set_solver)) as Hw.
      apply find_sub_Some in E2 as (-> & Hk & _).
      replace (Z.of_nat k =? -1) with false by (symmetry; apply Z.eqb_neq; lia).
      cbn [negb]. rewrite slice_from_in_range by done.
      cbn [mbind option_bind].
      change (length (str "contains")) with 8%nat.
      by apply contains_tail_spec.
    + by apply find_sub_None in E2 as ->.
Qed.

(** ** The parser as a whole *)

Lemma parse_spec unicode_ToLower query :
  parseNaturalLanguageQuery unicode_ToLower query
  = Some (spec_filters (strings_ToLower unicode_ToLower query)
            (strings_Fields (strings_ToLower unicode_ToLower query)), None).
Proof.
  unfold parseNaturalLanguageQuery, spec_filters.
  rewrite word_count_loop_spec. cbn [mbind option_bind].
  rewrite length_loop_spec. cbn [mbind option_bind].
  rewrite contains_block_spec. cbn [mbind option_bind].
  by destruct (strings_Contains _ _).
Qed.

Lemma lookup_put_filter_eq (k : gostring) (v : option any) (f : gmap gostring any) :
  put_filter k v f !! k = match v with Some x => Some x | None => f !! k end.
Proof. destruct v; simpl; [apply lookup_insert_eq|done]. Qed.

Lemma lookup_put_filter_ne (k k' : gostring) (v : option any) (f : gmap gostring any) :
  k ≠ k' → put_filter k v f !! k' = f !! k'.
Proof. intros H. destruct v; simpl; [by apply lookup_insert_ne|done]. Qed.

Ltac keys_differ := let H := fresh in intros H; key_discriminate.

Ltac lookup_filters :=
  unfold spec_filters;
  repeat first
    [ rewrite lookup_put_filter_eq
    | rewrite lookup_put_filter_ne by keys_differ ].

Lemma spec_filters_word_count lower words :
  spec_filters lower words !! k_word_count = VInt <$> spec_word_count words.
Proof. lookup_filters. by destruct (spec_word_count words). Qed.

Lemma spec_filters_min_length lower words :
  spec_filters lower words !! k_min_length = VInt <$> spec_min_length words.
Proof. lookup_filters. by destruct (spec_min_length words). Qed.

Lemma spec_filters_max_length lower words :
  spec_filters lower words !! k_max_length = VInt <$> spec_max_length words.
Proof. lookup_filters. by destruct (spec_max_length words). Qed.

Lemma spec_filters_contains_character lower words :
  spec_filters lower words !! k_contains_character
  = VString <$> spec_contains_character lower words.
Proof. lookup_filters. by destruct (spec_contains_character lower words). Qed.

Lemma spec_filters_is_palindrome lower words :
  spec_filters lower words !! k_is_palindrome
  = if strings_Contains lower (str "palindrom") then Some (VBool true) else None.
Proof. lookup_filters. by destruct (strings_Contains _ _). Qed.


Lemma well_typed_put (key : gostring) (val : option any) (f : gmap gostring any) :
  well_typed f → (∀ v, val = Some v → filter_type_ok key v = true) →
  well_typed (put_filter key val f).
Proof.
  intros Hf Hv. destruct val as [v|]; simpl; [|done].
  apply map_Forall_insert_2; [by apply Hv|done].
Qed.

Lemma well_typed_empty : well_typed ∅.
Proof. apply map_Forall_empty. Qed.

Lemma spec_filters_typed lower words : well_typed (spec_filters lower words).
Proof.
  unfold spec_filters.
  repeat apply well_typed_put; try apply well_typed_empty;
    intros v Hv; repeat case_match; simplify_option_eq; done.
Qed.


Lemma Atoi_is_int s n : Atoi s = Some n → is_int n.
Proof.
  unfold Atoi, is_int. intros H.
  repeat case_match; simplify_eq; bools; lia.
Qed.

Lemma than_occurrences_int which ws n :
  last (than_occurrences which ws) = Some n → is_int n.
Proof.
  intros H. apply last_Some in H as [l Hl].
  assert (Hin : n ∈ than_occurrences which ws) by (rewrite Hl; set_solver).
  unfold than_occurrences in Hin. apply list_elem_of_omap in Hin as (t & _ & Ht).
  case_match; [|done]. by apply Atoi_is_int in Ht.
Qed.

(** ** The natural-language parser: what each heuristic sets *)

(** C5, as amended.  The parser always returns; with the tokens of the
    lowercased query, min_length is set from the last occurrence
    "longer than N" and max_length from the last occurrence
    "shorter than N", where N is a token [strconv.Atoi] accepts, and is not
    set without one.  The values are [N + 1] and [N - 1] in [int]
    arithmetic: exactly [N + 1] unless N is the largest [int], exactly
    [N - 1] unless N is the smallest. *)
Theorem length_comparison_last_wins unicode_ToLower query :
  let words := strings_Fields (strings_ToLower unicode_ToLower query) in
  ∃ f, parseNaturalLanguageQuery unicode_ToLower query = Some (f, None)
    ∧ f !! k_min_length = VInt <$> spec_min_length words
    ∧ f !! k_max_length = VInt <$> spec_max_length words
    ∧ (∀ n, last (than_occurrences (str "longer") words) = Some n →
         n ≠ max_int → f !! k_min_length = Some (VInt (n + 1)))
    ∧ (∀ n, last (than_occurrences (str "shorter") words) = Some n →
         n ≠ min_int → f !! k_max_length = Some (VInt (n - 1))).
Proof.
  intros words. eexists. split; [apply parse_spec|].
  fold words. rewrite spec_filters_min_length, spec_filters_max_length.
  split; [done|]. split; [done|]. unfold spec_min_length, spec_max_length.
  split; intros n Hn Hne; rewrite Hn; simpl; do 2 f_equal;
    apply than_occurrences_int in Hn; apply int_wrap_id;
    unfold is_int, min_int, max_int in *; lia.
Qed.

(** C6, as amended.  word_count is set from the earliest token pair
    [a b] with [b] one of "word", "words" and [a] either a token
    [strconv.Atoi] accepts (a signed integer; the value is not checked) or
    "single" (which gives 1); later pairs never override it, and it is not
    set without such a pair. *)
Theorem word_count_first_wins unicode_ToLower query :
  let words := strings_Fields (strings_ToLower unicode_ToLower query) in
  ∃ f, parseNaturalLanguageQuery unicode_ToLower query = Some (f, None)
    ∧ f !! k_word_count = VInt <$> spec_word_count words.
Proof.
  intros words. eexists. split; [apply parse_spec|].
  apply spec_filters_word_count.
Qed.

(** C7, as amended.  With [rem] the lowercased text after the first
    "containing", else after the first "contains": if [rem] contains
    "letter ", contains_character is the first character after its first
    occurrence that is not white space, and is not set when only white
    space follows; without "letter " it is the last token of the query when
    that token is one character long; in every other case it is not set. *)
Theorem contains_character_heuristic unicode_ToLower query :
  let lower := strings_ToLower unicode_ToLower query in
  let words := strings_Fields lower in
  ∃ f, parseNaturalLanguageQuery unicode_ToLower query = Some (f, None)
    ∧ f !! k_contains_character = VString <$> spec_contains_character lower words.
Proof.
  intros lower words. eexists. split; [apply parse_spec|].
  apply spec_filters_contains_character.
Qed.


Lemma non_negative_param_typed val key message f f' :
  non_negative_param val key message f = inr f' →
  (∀ n, filter_type_ok key (VInt n) = true) →
  well_typed f → well_typed f'.
Proof.
  unfold non_negative_param. intros H Hk Hf.
  repeat case_match; simplify_eq; [done|]. by apply map_Forall_insert_2.
Qed.

Ltac next_param H :=
  match type of H with
  | match ?x with inl _ => _ | inr _ => _ end = _ =>
    let E := fresh "E" in destruct x eqn:E; [discriminate H|]
  end.

Lemma ListStrings_request_typed q f limit offset :
  ListStrings_request q = CallList f limit offset → well_typed f.
Proof.
  unfold ListStrings_request. intros H.
  do 7 next_param H. injection H as <- _ _.
  apply non_negative_param_typed in E0; [|done|].
  2:{ clear -E. repeat case_match; simplify_eq;
        [apply well_typed_empty|].
      apply map_Forall_insert_2; [done|apply well_typed_empty]. }
  apply non_negative_param_typed in E1; [|done..].
  apply non_negative_param_typed in E2; [|done..].
  clear -E2 E3. repeat case_match; simplify_eq; [done|].
  by apply map_Forall_insert_2.
Qed.

(** C10.  The evaluator panics on a filter map that holds a value of the
    wrong dynamic type under a recognised name (in every visiting order
    that reaches the entry, such as the one exhibited).  A filter map built
    by [ListStrings] or by [parseNaturalLanguageQuery] is typed, and on a
    typed map the evaluator returns for every resource and every visiting
    order, and so does the filtering loop of [List]. *)
Theorem constructed_filters_never_panic unicode_ToLower f :
  (∃ q limit offset, ListStrings_request q = CallList f limit offset)
  ∨ (∃ query err, parseNaturalLanguageQuery unicode_ToLower query = Some (f, err)) →
  well_typed f
  ∧ (∀ res entries, range_map f entries → is_Some (matchesFilters res entries))
  ∧ (∀ order visit, (∀ k, range_map f (visit k)) →
       is_Some (collect visit 0 order []))
  ∧ (∀ (g : gmap gostring any) key val res,
       g !! key = Some val → filter_type_ok key val = false →
       ∃ entries, range_map g entries ∧ matchesFilters res entries = None).
Proof.
  intros H.
  assert (Hf : well_typed f).
  { destruct H as [(q & limit & offset & H)|(query & err & H)].
    - by eapply ListStrings_request_typed.
    - rewrite parse_spec in H. injection H as <- _. apply spec_filters_typed. }
  split; [done|]. split; [|split].
  - intros res entries Hr. rewrite (matchesFilters_decides res f entries) by done. eauto.
  - intros order visit Hv. rewrite (collect_matching f) by done. eauto.
  - intros g key val res. apply matchesFilters_panics.
Qed.

(** ** The property computer *)

Lemma sum_values_insert_fresh (m : gmap gostring Z) k v :
  m !! k = None → sum_values (<[k := v]> m) = v + sum_values m.
Proof.
  intros H. unfold sum_values.
  rewrite map_fold_insert_L; [done| |done]. intros. lia.
Qed.

Lemma sum_values_delete (m : gmap gostring Z) k v :
  m !! k = Some v → sum_values m = v + sum_values (delete k m).
Proof.
  intros H. rewrite <- (insert_delete_id m k v H) at 1.
  apply sum_values_insert_fresh, lookup_delete_eq.
Qed.

Lemma sum_values_incr m r : sum_values (freq_incr m r) = sum_values m + 1.
Proof.
  unfold freq_incr. destruct (m !! EncodeRune r) as [v|] eqn:E; simpl.
  - rewrite <- insert_delete_eq.
    rewrite sum_values_insert_fresh by apply lookup_delete_eq.
    rewrite (sum_values_delete m _ v E). lia.
  - rewrite sum_values_insert_fresh by done. lia.
Qed.

Lemma sum_values_foldl l m :
  sum_values (foldl freq_incr m l) = sum_values m + Z.of_nat (length l).
Proof.
  revert m. induction l as [|r l IH]; intros m; simpl; [lia|].
  rewrite IH, sum_values_incr. lia.
Qed.

Lemma freq_incr_lookup m r k :
  freq_incr m r !! k
  = if decide (EncodeRune r = k) then Some (default 0 (m !! k) + 1) else m !! k.
Proof.
  unfold freq_incr. case_decide as E.
  - subst k. apply lookup_insert_eq.
  - by apply lookup_insert_ne.
Qed.

(** The count stored under a key is the number of runes that key stands
    for; a key that stands for none is absent. *)
Lemma foldl_freq_lookup l m k :
  foldl freq_incr m l !! k
  = let c := length (filter (λ r, EncodeRune r = k) l) in
    if decide (c = 0%nat) then m !! k
    else Some (default 0 (m !! k) + Z.of_nat c).
Proof.
  revert m. induction l as [|r l IH]; intros m.
  { cbv zeta. rewrite filter_nil. by rewrite decide_True. }
  cbn [foldl]. rewrite IH, freq_incr_lookup. cbv zeta.
  destruct (decide (EncodeRune r = k)) as [E|E].
  - rewrite filter_cons_True by exact E. cbn [length].
    destruct (decide (S _ = 0%nat)) as [?|_]; [done|].
    case_decide as Hc; [rewrite Hc|]; unfold default; cbn [from_option id];
      f_equal; lia.
  - by rewrite filter_cons_False by exact E.
Qed.

Lemma filter_length_pos {A} (P : A → Prop) `{∀ x, Decision (P x)} (l : list A) :
  length (filter P l) ≠ 0%nat ↔ ∃ x, x ∈ l ∧ P x.
Proof.
  split.
  - intros Hl. destruct (filter P l) as [|x l'] eqn:E; [done|].
    exists x. assert (Hx : x ∈ filter P l) by (rewrite E; set_solver).
    apply list_elem_of_filter in Hx. tauto.
  - intros (x & Hx & HP) Hl. apply length_zero_iff_nil in Hl.
    assert (x ∈ filter P l) as Hin by (by apply list_elem_of_filter).
    rewrite Hl in Hin. by apply elem_of_nil in Hin.
Qed.

Lemma runes_length_le s : (length (runes s) <= length s)%nat.
Proof.
  unfold runes. rewrite length_fmap.
  apply (range_string_ind (λ s cs, (length cs <= length s)%nat)); [done|].
  intros b t r w _ Hw IH. rewrite length_drop in IH. simpl in *. lia.
Qed.

(** On pure ASCII the number of runes is the number of bytes. *)
Lemma runes_length_ascii s :
  Forall (λ a, byteZ a < 128) s → length (runes s) = length s.
Proof.
  unfold runes. rewrite length_fmap.
  apply (range_string_ind
           (λ s cs, Forall (λ a, byteZ a < 128) s → length cs = length s));
    [done|].
  intros b t r w E Hw IH Hall.
  assert (Hone : w = 1%nat).
  { destruct (DecodeRune_bytes _ _ _ _ E) as [[Hone _]|Hbig]; [done|].
    apply Forall_cons in Hall as [Hb _].
    assert (Hin : b ∈ take w (b :: t)) by (destruct w; [lia|by left]).
    specialize (Hbig b Hin). lia. }
  subst w. simpl in *. f_equal. apply IH. by apply Forall_cons in Hall as [_ ?].
Qed.

(** [isPalindrome] compares the cleaned string with its reverse byte by
    byte. *)
Lemma palindrome_loop_reverse {A} `{EqDecision A} (l : list A) :
  forallb (λ i, bool_decide (l !! i = l !! (length l - 1 - i)%nat))
          (seq 0 (length l / 2)) = true
  ↔ l = reverse l.
Proof.
  rewrite forallb_forall. split.
  - intros H. apply list_eq. intros i.
    destruct (decide (i < length l)%nat) as [Hi|Hi].
    2:{ rewrite !lookup_ge_None_2; [done|rewrite ?length_reverse; lia..]. }
    rewrite reverse_lookup by done.
    assert (Hsym : ∀ j, (j < length l / 2)%nat →
                        l !! j = l !! (length l - 1 - j)%nat).
    { intros j Hj. specialize (H j). rewrite bool_decide_eq_true in H.
      apply H, in_seq. lia. }
    pose proof (Nat.div_mod_eq (length l) 2) as Hdm.
    pose proof (Nat.mod_upper_bound (length l) 2) as Hm.
    destruct (decide (i < length l / 2)%nat) as [Hlo|Hhi].
    + rewrite Hsym by done. f_equal. lia.
    + destruct (decide (length l - S i < length l / 2)%nat) as [Hlo'|Hhi'].
      * rewrite (Hsym (length l - S i)%nat) by done. f_equal. lia.
      * f_equal. lia.
  - intros Hl i Hi. apply in_seq in Hi. apply bool_decide_eq_true_2.
    pose proof (Nat.div_mod_eq (length l) 2) as Hdm.
    rewrite Hl at 1. rewrite reverse_lookup by lia. f_equal. lia.
Qed.

Lemma isPalindrome_bytes unicode_IsLetter unicode_IsDigit unicode_ToLower s :
  isPalindrome unicode_IsLetter unicode_IsDigit unicode_ToLower s = true
  ↔ cleaned unicode_IsLetter unicode_IsDigit unicode_ToLower s
    = reverse (cleaned unicode_IsLetter unicode_IsDigit unicode_ToLower s).
Proof. unfold isPalindrome. apply palindrome_loop_reverse. Qed.

(** ** UTF-8 encoding against decoding *)

Ltac euclid := Z.to_euclidean_division_equations; lia.

Lemma byteZ_range a : 0 <= byteZ a < 256.
Proof.
  unfold byteZ. pose proof (N_ascii_bounded a). lia.
Qed.

Lemma byte_of_byteZ a : byte_of (byteZ a) = a.
Proof.
  unfold byte_of. rewrite Z.mod_small by apply byteZ_range.
  unfold byteZ. rewrite N2Z.id. apply ascii_N_embedding.
Qed.

Lemma byte_of_eq z a : z = byteZ a → byte_of z = a.
Proof. intros ->. apply byte_of_byteZ. Qed.

Lemma lor_shiftl_add hi lo n :
  0 <= n → 0 <= lo < 2 ^ n → Z.lor (Z.shiftl hi n) lo = hi * 2 ^ n + lo.
Proof.
  intros Hn Hlo. pose proof (Z.add_lor_land (Z.shiftl hi n) lo) as H.
  assert (H0 : Z.land (Z.shiftl hi n) lo = 0).
  { rewrite <- (Z.mod_small lo (2 ^ n)) by lia.
    rewrite <- Z.land_ones by lia. rewrite (Z.land_comm lo), Z.land_assoc.
    rewrite (Z.land_ones (Z.shiftl hi n)) by lia.
    rewrite Z.shiftl_mul_pow2 by lia. rewrite Z.mod_mul by lia.
    apply Z.land_0_l. }
  rewrite H0 in H. rewrite <- (Z.shiftl_mul_pow2 hi n) by lia. lia.
Qed.

Lemma land_63 x : Z.land x 63 = x mod 64.
Proof. change 63 with (Z.ones 6). by rewrite Z.land_ones. Qed.

Lemma land_31 x : Z.land x 31 = x mod 32.
Proof. change 31 with (Z.ones 5). by rewrite Z.land_ones. Qed.

Lemma land_15 x : Z.land x 15 = x mod 16.
Proof. change 15 with (Z.ones 4). by rewrite Z.land_ones. Qed.

Lemma land_7 x : Z.land x 7 = x mod 8.
Proof. change 7 with (Z.ones 3). by rewrite Z.land_ones. Qed.

Lemma lor_tag tag n v :
  0 <= n → 0 <= v < 2 ^ n → Z.lor (tag * 2 ^ n) v = tag * 2 ^ n + v.
Proof.
  intros Hn Hv. rewrite <- (lor_shiftl_add tag v n) by done.
  by rewrite Z.shiftl_mul_pow2.
Qed.

Lemma EncodeRune_1 r : 0 <= r <= 127 → EncodeRune r = [byte_of r].
Proof.
  intros H. unfold EncodeRune.
  repeat case_match; bools; try lia; done.
Qed.

Lemma EncodeRune_2 r :
  128 <= r <= 2047 →
  EncodeRune r = [byte_of (192 + r / 64); byte_of (128 + r mod 64)].
Proof.
  intros H. unfold EncodeRune.
  repeat case_match; bools; try lia.
  rewrite land_63, Z.shiftr_div_pow2 by lia.
  rewrite (lor_tag 3 6), (lor_tag 2 6) by euclid. done.
Qed.

Lemma EncodeRune_3 r :
  2048 <= r <= 65535 → ¬ (55296 <= r <= 57343) →
  EncodeRune r = [byte_of (224 + r / 4096); byte_of (128 + (r / 64) mod 64);
                  byte_of (128 + r mod 64)].
Proof.
  intros H Hs. unfold EncodeRune.
  repeat case_match; bools; try lia.
  rewrite !land_63, !Z.shiftr_div_pow2 by lia.
  rewrite (lor_tag 14 4), !(lor_tag 2 6) by euclid. done.
Qed.

Lemma EncodeRune_4 r :
  65536 <= r <= 1114111 →
  EncodeRune r = [byte_of (240 + r / 262144); byte_of (128 + (r / 4096) mod 64);
                  byte_of (128 + (r / 64) mod 64); byte_of (128 + r mod 64)].
Proof.
  intros H. unfold EncodeRune.
  repeat case_match; bools; try lia.
  rewrite !land_63, !Z.shiftr_div_pow2 by lia.
  rewrite (lor_tag 30 3), !(lor_tag 2 6) by euclid. done.
Qed.

Lemma decode_2 x y :
  Z.lor (Z.shiftl (Z.land x 31) 6) (Z.land y 63) = x mod 32 * 64 + y mod 64.
Proof.
  rewrite land_31, land_63. rewrite lor_shiftl_add by euclid. done.
Qed.

Lemma decode_3 x y z :
  Z.lor (Z.shiftl (Z.land x 15) 12)
    (Z.lor (Z.shiftl (Z.land y 63) 6) (Z.land z 63))
  = x mod 16 * 4096 + y mod 64 * 64 + z mod 64.
Proof.
  rewrite land_15, !land_63. rewrite (lor_shiftl_add _ _ 6) by euclid.
  rewrite lor_shiftl_add by euclid. lia.
Qed.

Lemma decode_4 x y z u :
  Z.lor (Z.shiftl (Z.land x 7) 18)
    (Z.lor (Z.shiftl (Z.land y 63) 12)
       (Z.lor (Z.shiftl (Z.land z 63) 6) (Z.land u 63)))
  = x mod 8 * 262144 + y mod 64 * 4096 + z mod 64 * 64 + u mod 64.
Proof.
  rewrite land_7, !land_63. rewrite (lor_shiftl_add _ _ 6) by euclid.
  rewrite (lor_shiftl_add _ _ 12) by euclid.
  rewrite lor_shiftl_add by euclid. lia.
Qed.

(** A rune decoded from well-formed bytes encodes back to those bytes; any
    other rune that decoding yields is [RuneError]. *)
Lemma EncodeRune_DecodeRune b t r w :
  DecodeRune (b :: t) = (r, w) →
  r = RuneError ∨ EncodeRune r = take w (b :: t).
Proof.
  unfold DecodeRune, in_range. intros H.
  pose proof (byteZ_range b) as Hb.
  repeat case_match; simplify_eq; try (by left); right; bools;
    repeat match goal with a : ascii |- _ =>
      lazymatch goal with
      | H : 0 <= byteZ a < 256 |- _ => fail
      | _ => pose proof (byteZ_range a)
      end end.
  all: try (exfalso; lia).
  all: first [ rewrite EncodeRune_1 by lia
             | rewrite decode_2, EncodeRune_2 by euclid
             | rewrite decode_3, EncodeRune_3 by euclid
             | rewrite decode_4, EncodeRune_4 by euclid ];
    simpl; repeat f_equal; apply byte_of_eq; euclid.
Qed.

Lemma DecodeRune_own_bytes b t r w :
  DecodeRune (b :: t) = (r, w) → DecodeRune (take w (b :: t)) = (r, w).
Proof.
  intros H. rewrite <- (app_nil_r (take w (b :: t))).
  apply (DecodeRune_prefix b t r w [] (drop w (b :: t))); done.
Qed.

(** Every rune that ranging over a string yields comes with the bytes it
    decodes from, and encodes back to them unless it is [RuneError]. *)
Lemma rune_chunk s r :
  r ∈ runes s →
  ∃ b t, DecodeRune (b :: t) = (r, length (b :: t))
         ∧ (r = RuneError ∨ EncodeRune r = b :: t).
Proof.
  unfold runes. intros (c & -> & Hc)%list_elem_of_fmap. revert c Hc.
  apply (range_string_ind
           (λ s cs, ∀ c, c ∈ cs →
              ∃ b t, DecodeRune (b :: t) = (c.1, length (b :: t))
                     ∧ (c.1 = RuneError ∨ EncodeRune c.1 = b :: t))).
  - intros c Hc. by apply elem_of_nil in Hc.
  - intros b t r w E Hw IH c Hc. apply elem_of_cons in Hc as [->|Hc]; [|by apply IH].
    cbn [fst]. pose proof (DecodeRune_own_bytes b t r w E) as Hown.
    pose proof (EncodeRune_DecodeRune b t r w E) as Henc.
    assert (Hlen : length (take w (b :: t)) = w)
      by (rewrite length_take; simpl; lia).
    destruct (take w (b :: t)) as [|b' t'] eqn:Et; [simpl in Hlen; lia|].
    exists b', t'. by rewrite Hlen.
Qed.

Lemma EncodeRune_RuneError_decodes :
  DecodeRune (EncodeRune RuneError) = (RuneError, 3%nat).
Proof. by vm_compute. Qed.

(** [string(r)] tells the runes of strings apart. *)
Lemma EncodeRune_inj_runes s1 s2 r1 r2 :
  r1 ∈ runes s1 → r2 ∈ runes s2 → EncodeRune r1 = EncodeRune r2 → r1 = r2.
Proof.
  intros (b1 & t1 & D1 & V1)%rune_chunk (b2 & t2 & D2 & V2)%rune_chunk He.
  destruct V1 as [->|V1], V2 as [->|V2]; [done| | |].
  - rewrite <- V2, <- He, EncodeRune_RuneError_decodes in D2. congruence.
  - rewrite <- V1, He, EncodeRune_RuneError_decodes in D1. congruence.
  - rewrite <- V1, He, V2, D2 in D1. congruence.
Qed.

(** [string(r)] is a string of the one character [r]. *)
Lemma runes_EncodeRune s r : r ∈ runes s → runes (EncodeRune r) = [r].
Proof.
  intros (b & t & D & [->|V])%rune_chunk; [by vm_compute|].
  rewrite V. unfold runes. rewrite range_string_cons, D. cbn [fst snd].
  rewrite drop_all. by rewrite take_ge.
Qed.

Lemma remove_dups_fmap_length {A B} `{EqDecision A, EqDecision B}
    (f : A → B) (l : list A) :
  (∀ x y, x ∈ l → y ∈ l → f x = f y → x = y) →
  length (remove_dups (f <$> l)) = length (remove_dups l).
Proof.
  induction l as [|x l IH]; intros Hinj; [done|].
  cbn [fmap list_fmap remove_dups].
  assert (Hmem : f x ∈ f <$> l ↔ x ∈ l).
  { rewrite list_elem_of_fmap. split; [|by eauto].
    intros (y & Hy & Hin). rewrite (Hinj x y); [done|by left|by right|done]. }
  assert (IH' : length (remove_dups (f <$> l)) = length (remove_dups l)).
  { apply IH. intros y z Hy Hz. apply Hinj; by right. }
  destruct (decide_rel elem_of (f x) (f <$> l)) as [H1|H1],
           (decide_rel elem_of x l) as [H2|H2]; simpl; try tauto; by rewrite IH'.
Qed.

Lemma filter_ext_elem {A} (P Q : A → Prop)
    `{∀ x, Decision (P x), ∀ x, Decision (Q x)} (l : list A) :
  (∀ x, x ∈ l → P x ↔ Q x) → filter P l = filter Q l.
Proof.
  induction l as [|x l IH]; intros Hpq; [done|].
  rewrite !filter_cons.
  rewrite IH by (intros y Hy; apply Hpq; by right).
  destruct (decide (P x)) as [HP|HP], (decide (Q x)) as [HQ|HQ]; try done;
    exfalso; apply (Hpq x) in HP || apply (Hpq x) in HQ; by try left.
Qed.

(** C9.  The keys of the frequency map are exactly the strings [string(r)]
    of the code points [r] that ranging over the value yields, each a
    string of that one code point; the count under [string(r)] is the
    number of occurrences of [r]; the counts add up to the number of code
    points; and unique_characters is the number of keys, which is the
    number of distinct code points. *)
Theorem frequency_map_spec unicode_IsLetter unicode_IsDigit unicode_ToLower value :
  let p := ComputeProperties unicode_IsLetter unicode_IsDigit unicode_ToLower value in
  let m := CharacterFrequencyMap p in
  (∀ k, k ∈ dom m ↔ ∃ r, r ∈ runes value ∧ k = EncodeRune r ∧ runes k = [r])
  ∧ (∀ r, r ∈ runes value →
       m !! EncodeRune r
       = Some (Z.of_nat (length (filter (λ r', r' = r) (runes value)))))
  ∧ sum_values m = Z.of_nat (length (runes value))
  ∧ UniqueCharacters p = Z.of_nat (size m)
  ∧ size m = length (remove_dups (runes value)).
Proof.
  intros p m. subst p m. cbn [ComputeProperties CharacterFrequencyMap UniqueCharacters].
  unfold freqMap_of.
  assert (Hdom : ∀ k, k ∈ dom (foldl freq_incr ∅ (runes value))
                      ↔ k ∈ EncodeRune <$> runes value).
  { intros k. rewrite elem_of_dom, foldl_freq_lookup, list_elem_of_fmap. cbv zeta.
    rewrite lookup_empty. case_decide as Hc.
    - split; [by intros [? ?]|]. intros (r & -> & Hr). exfalso.
      revert Hc. apply filter_length_pos. eauto.
    - split; [|eauto]. intros _.
      apply filter_length_pos in Hc as (r & Hr & <-). eauto. }
  split; [|split; [|split; [|split]]].
  - intros k. rewrite Hdom, list_elem_of_fmap. split.
    + intros (r & -> & Hr). exists r. split; [done|]. split; [done|].
      by apply (runes_EncodeRune value).
    + intros (r & Hr & -> & _). eauto.
  - intros r Hr. rewrite foldl_freq_lookup. cbv zeta.
    assert (Hsame : filter (λ r', EncodeRune r' = EncodeRune r) (runes value)
                    = filter (λ r', r' = r) (runes value)).
    { apply filter_ext_elem. intros r' Hr'. split; [|by intros ->].
      by apply (EncodeRune_inj_runes value value). }
    rewrite Hsame, lookup_empty.
    rewrite decide_False; [simpl; f_equal; lia|].
    apply filter_length_pos. eauto.
  - rewrite sum_values_foldl. unfold sum_values. by rewrite map_fold_empty.
  - done.
  - rewrite <- (remove_dups_fmap_length EncodeRune)
      by (intros x y; apply (EncodeRune_inj_runes value value)).
    rewrite <- (size_dom (D := gset gostring)).
    rewrite <- (size_list_to_set (C := gset gostring)) by apply NoDup_remove_dups.
    f_equal. apply set_eq. intros k.
    by rewrite Hdom, elem_of_list_to_set, elem_of_remove_dups.
Qed.

(** ** Where bytes and code points agree: ASCII *)

Lemma ComputeProperties_Length_ascii unicode_IsLetter unicode_IsDigit
    unicode_ToLower value :
  Forall (λ a, byteZ a < 128) value →
  Length (ComputeProperties unicode_IsLetter unicode_IsDigit unicode_ToLower value)
  = Z.of_nat (length (runes value)).
Proof. intros H. cbn [ComputeProperties Length]. by rewrite runes_length_ascii. Qed.

Lemma byte_of_inj_ascii x y :
  0 <= x < 128 → 0 <= y < 128 → byte_of x = byte_of y → x = y.
Proof.
  intros Hx Hy H. apply (f_equal byteZ) in H. revert H. unfold byteZ, byte_of.
  rewrite !Z.mod_small by lia. rewrite !N_ascii_embedding by lia.
  rewrite !Z2N.id by lia. done.
Qed.

Lemma encode_ascii_runes rs :
  Forall (λ r, 0 <= r < 128) rs → rs ≫= EncodeRune = byte_of <$> rs.
Proof.
  induction 1 as [|r rs Hr _ IH]; [done|].
  cbn [mbind list_bind fmap list_fmap]. fold (rs ≫= EncodeRune).
  rewrite IH, EncodeRune_1 by lia. done.
Qed.

Lemma fmap_inj_on {A B} (f : A → B) (l l' : list A) :
  (∀ x y, x ∈ l → y ∈ l' → f x = f y → x = y) →
  f <$> l = f <$> l' → l = l'.
Proof.
  revert l'. induction l as [|x l IH]; intros [|y l'] Hinj H; try done.
  injection H as Hxy Hl. f_equal.
  - apply Hinj; [by left|by left|done].
  - apply IH; [|done]. intros a b Ha Hb. apply Hinj; by right.
Qed.

(** When every letter and digit kept by the cleaning is ASCII, the byte
    comparison of [isPalindrome] is the comparison of code points. *)
Lemma isPalindrome_ascii unicode_IsLetter unicode_IsDigit unicode_ToLower s :
  Forall (λ r, 0 <= r < 128)
         (cleaned_runes unicode_IsLetter unicode_IsDigit unicode_ToLower s) →
  isPalindrome unicode_IsLetter unicode_IsDigit unicode_ToLower s = true
  ↔ cleaned_runes unicode_IsLetter unicode_IsDigit unicode_ToLower s
    = reverse (cleaned_runes unicode_IsLetter unicode_IsDigit unicode_ToLower s).
Proof.
  intros Hascii. rewrite isPalindrome_bytes. unfold cleaned.
  rewrite encode_ascii_runes by done. rewrite <- fmap_reverse. split.
  - apply fmap_inj_on. intros x y Hx Hy. rewrite elem_of_reverse in Hy.
    rewrite Forall_forall in Hascii. apply byte_of_inj_ascii; by apply Hascii.
  - by intros <-.
Qed.

(** ** Evaluation on concrete inputs *)

Lemma range_map_insert {V} (m : gmap gostring V) key val entries :
  m !! key = None → range_map m entries →
  range_map (<[key := val]> m) ((key, val) :: entries).
Proof.
  unfold range_map. intros Hk Hm. rewrite map_to_list_insert by done.
  by constructor.
Qed.

Lemma range_map_empty {V} : range_map (∅ : gmap gostring V) [].
Proof. unfold range_map. by rewrite map_to_list_empty. Qed.

Lemma sample_entries_range : range_map sample_filters sample_entries.
Proof.
  unfold sample_filters, sample_entries.
  apply range_map_insert; [by vm_compute|].
  apply range_map_insert; [by vm_compute|]. apply range_map_empty.
Qed.

Lemma sample_filters_typed : well_typed sample_filters.
Proof.
  unfold sample_filters.
  apply map_Forall_insert_2; [done|].
  apply map_Forall_insert_2; [done|]. apply well_typed_empty.
Qed.

Lemma sample_order_range : range_store sample_store sample_order.
Proof.
  unfold range_store, sample_store, sample_order.
  rewrite map_to_list_insert by (by vm_compute).
  rewrite map_to_list_insert by (by vm_compute).
  by rewrite map_to_list_empty.
Qed.

(** Evaluates the heuristics of the parser on a concrete query. *)
Ltac eval_term c :=
  let v := eval vm_compute in c in
  replace c with v by (vm_compute; reflexivity).

Ltac run_parser :=
  rewrite ?parse_spec; unfold spec_filters;
  repeat match goal with
         | |- context [strings_Contains ?a ?b] => eval_term (strings_Contains a b)
         | |- context [spec_word_count ?a] => eval_term (spec_word_count a)
         | |- context [spec_min_length ?a] => eval_term (spec_min_length a)
         | |- context [spec_max_length ?a] => eval_term (spec_max_length a)
         | |- context [spec_contains_character ?a ?b] =>
           eval_term (spec_contains_character a b)
         end;
  cbn [put_filter fmap option_fmap option_map].

(** The properties of the README's example. *)
Example properties_panama :
  let p := latin1_properties (str "A man, a plan, a canal: Panama") in
  Length p = 30 ∧ IsPalindrome p = true ∧ UniqueCharacters p = 11
  ∧ WordCount p = 7.
Proof. vm_compute. repeat split. Qed.

Example parse_single_word_palindromic :
  parseNaturalLanguageQuery latin1_ToLower (str "all single word palindromic strings")
  = Some (<[k_word_count := VInt 1]> (<[k_is_palindrome := VBool true]> ∅), None).
Proof. run_parser. reflexivity. Qed.

Example parse_longer_than_10 :
  parseNaturalLanguageQuery latin1_ToLower (str "strings longer than 10 characters")
  = Some (<[k_min_length := VInt 11]> ∅, None).
Proof. run_parser. reflexivity. Qed.

Example parse_containing_letter_z :
  parseNaturalLanguageQuery latin1_ToLower (str "strings containing the letter z")
  = Some (<[k_contains_character := VString (str "z")]> ∅, None).
Proof. run_parser. reflexivity. Qed.

Example parse_shorter_than_0 :
  parseNaturalLanguageQuery latin1_ToLower (str "shorter than 0")
  = Some (<[k_max_length := VInt (-1)]> ∅, None).
Proof. run_parser. reflexivity. Qed.

Example parse_single_words :
  parseNaturalLanguageQuery latin1_ToLower (str "single words")
  = Some (<[k_word_count := VInt 1]> ∅, None).
Proof. run_parser. reflexivity. Qed.

(** C1.  [Length] is [len(value)], the number of bytes.  On the one-letter
    string U+00E9 it is 2, while ranging over the string yields one code
    point (and the frequency map counts one). *)
Theorem Length_is_byte_count :
  Length (latin1_properties e_acute) = 2
  ∧ runes e_acute = [233]
  ∧ sum_values (CharacterFrequencyMap (latin1_properties e_acute)) = 1.
Proof. vm_compute. repeat split. Qed.

Lemma ComputeProperties_Length unicode_IsLetter unicode_IsDigit unicode_ToLower value :
  Length (ComputeProperties unicode_IsLetter unicode_IsDigit unicode_ToLower value)
  = Z.of_nat (length value).
Proof. reflexivity. Qed.

(** C2.  [isPalindrome] compares the cleaned string byte by byte.  The
    one-letter string U+00E9 is cleaned to the single code point 233, a
    sequence of length 1 that equals its reverse, yet the two bytes of its
    encoding differ and the result is false. *)
Theorem isPalindrome_compares_bytes :
  cleaned_runes latin1_IsLetter latin1_IsDigit latin1_ToLower e_acute = [233]
  ∧ reverse [233] = [233]
  ∧ isPalindrome latin1_IsLetter latin1_IsDigit latin1_ToLower e_acute = false.
Proof. vm_compute. repeat split. Qed.

(** U+00E9 "t" U+00E9 reads the same both ways, code point by code point. *)
Example isPalindrome_ete :
  let s := e_acute ++ str "t" ++ e_acute in
  cleaned_runes latin1_IsLetter latin1_IsDigit latin1_ToLower s = [233; 116; 233]
  ∧ isPalindrome latin1_IsLetter latin1_IsDigit latin1_ToLower s = false.
Proof. vm_compute. repeat split. Qed.

Lemma matchesFilters_spec_witness :
  matchesFilters (sample (str "racecar")) sample_entries
  = Some (bool_decide (satisfies (Props (sample (str "racecar"))) sample_filters)).
Proof.
  apply (matchesFilters_spec (sample (str "racecar")) sample_filters sample_entries).
  - exact sample_filters_typed.
  - exact sample_entries_range.
Defined.



(** C5 as stated fails: "longer than 9223372036854775807" parses its
    integer and sets min_length to the smallest [int], not to N + 1. *)
Lemma longer_than_max_int_wraps :
  Atoi (str "9223372036854775807") = Some 9223372036854775807
  ∧ ∃ f, parseNaturalLanguageQuery latin1_ToLower
           (str "longer than 9223372036854775807") = Some (f, None)
      ∧ f !! k_min_length = Some (VInt (-9223372036854775808))
      ∧ f !! k_min_length ≠ Some (VInt (9223372036854775807 + 1)).
Proof.
  split; [by vm_compute|]. eexists. split; [apply parse_spec|].
  rewrite spec_filters_min_length.
  eval_term (spec_min_length
               (strings_Fields (strings_ToLower latin1_ToLower
                  (str "longer than 9223372036854775807")))).
  split; [reflexivity|]. intros [= H].
Qed.

(** C6 as stated fails: "-5" is not a non-negative integer, so the query
    holds no sequence "<N> words" in the stated sense, yet word_count is
    set, to -5. *)
Lemma negative_word_count_accepted :
  let words := strings_Fields (strings_ToLower latin1_ToLower (str "-5 words")) in
  stated_word_count words = None
  ∧ ∃ f, parseNaturalLanguageQuery latin1_ToLower (str "-5 words") = Some (f, None)
      ∧ f !! k_word_count = Some (VInt (-5)).
Proof.
  split; [by vm_compute|]. eexists. split; [apply parse_spec|].
  rewrite spec_filters_word_count. by vm_compute.
Qed.

(** C7 as stated fails: after "letter " comes a space, which is the first
    character after the phrase, but the filter is set to "z". *)
Lemma letter_skips_white_space :
  let query := str "strings containing the letter  z" in
  let lower := strings_ToLower latin1_ToLower query in
  stated_contains_character lower (strings_Fields lower) = Some (str " ")
  ∧ ∃ f, parseNaturalLanguageQuery latin1_ToLower query = Some (f, None)
      ∧ f !! k_contains_character = Some (VString (str "z")).
Proof.
  split; [by vm_compute|]. eexists. split; [apply parse_spec|].
  rewrite spec_filters_contains_character. by vm_compute.
Qed.


Lemma constructed_filters_never_panic_witness :
  well_typed sample_filters
  ∧ is_Some (matchesFilters (sample (str "racecar")) sample_entries).
Proof.
  destruct (constructed_filters_never_panic latin1_ToLower sample_filters)
    as (Hty & Hm & _).
  - left. exists sample_query, 25, 0. reflexivity.
  - split; [exact Hty|]. apply Hm. exact sample_entries_range.
Defined.

(** * The rest of the service: proofs *)

(** ** Path decoding *)

Lemma has_prefix_app p v : has_prefix p (p ++ v) = true.
Proof. apply has_prefix_spec. eauto. Qed.

Lemma strings_TrimPrefix_app p v : strings_TrimPrefix (p ++ v) p = v.
Proof.
  unfold strings_TrimPrefix. rewrite has_prefix_app. by rewrite drop_app_length.
Qed.

Lemma url_PathUnescape_plain s :
  "%"%char ∉ s → url_PathUnescape s = Some s.
Proof.
  induction s as [|c s IH]; [done|]. intros Hnot.
  apply not_elem_of_cons in Hnot as [Hc Hs]. cbn [url_PathUnescape].
  rewrite bool_decide_eq_false_2 by (intros ->; done).
  by rewrite IH.
Qed.


(** ** The handlers that read and write single resources *)

Ltac in_list := solve [repeat first [by left | right]].

Lemma created_is_no_error : 201 ∉ [405; 400; 409].
Proof.
  intros H. repeat (apply elem_of_cons in H as [H|H]; [done|]).
  by apply elem_of_nil in H.
Qed.

Lemma path_value_differs (value : gostring) : value ≠ str "/strings/" ++ value.
Proof.
  intros H. apply (f_equal length) in H. rewrite length_app in H.
  change (length (str "/strings/")) with 9%nat in H. lia.
Qed.

Lemma GetString_path value store :
  value ≠ [] →
  GetString MethodGet (str "/strings/" ++ value) store
  = match url_PathUnescape value with
    | None => writeError 400 (str "Bad Request") (str "Invalid URL encoding")
    | Some stringValue =>
      match store !! stringValue with
      | Some res => writeJSON 200 (Resource res)
      | None => writeError 404 (str "Not Found") (str "String not found")
      end
    end.
Proof.
  intros Hne. unfold GetString.
  rewrite bool_decide_eq_true_2 by done. cbn [negb].
  rewrite strings_TrimPrefix_app.
  rewrite bool_decide_eq_false_2 by done.
  rewrite bool_decide_eq_false_2 by apply path_value_differs. cbn [orb].
  destruct (url_PathUnescape value) as [v|]; [|done].
  unfold InMemoryStore_Get. by destruct (store !! v).
Qed.

(** X1.  A GET for the path "/strings/" followed by a non-empty value
    without "%" looks the value up as it is: 200 with the stored resource,
    or 404 when the store has none. *)
Theorem GetString_looks_up_plain_value value store :
  value ≠ [] → "%"%char ∉ value →
  GetString MethodGet (str "/strings/" ++ value) store
  = match store !! value with
    | Some res => writeJSON 200 (Resource res)
    | None => writeError 404 (str "Not Found") (str "String not found")
    end.
Proof.
  intros Hne Hp. rewrite GetString_path by done.
  by rewrite url_PathUnescape_plain.
Qed.


Lemma CreateString_cases unicode_IsLetter unicode_IsDigit unicode_ToLower
    method decoded now store :
  let r := CreateString unicode_IsLetter unicode_IsDigit unicode_ToLower
             method decoded now store in
  (∃ value,
      decoded = inr value ∧ method = MethodPost ∧ value ≠ []
      ∧ store !! value = None
      ∧ r = (writeJSON 201
               (Resource (new_resource
                  (ComputeProperties unicode_IsLetter unicode_IsDigit
                     unicode_ToLower value) value now)),
             <[value := new_resource
                  (ComputeProperties unicode_IsLetter unicode_IsDigit
                     unicode_ToLower value) value now]> store))
  ∨ (StatusCode r.1 ∈ [405; 400; 409] ∧ r.2 = store).
Proof.
  cbv zeta. unfold CreateString.
  case_bool_decide as Hm; cbn [negb]; [|right; split; [in_list|done]].
  destruct decoded as [err|value]; [right; split; [in_list|done]|].
  case_bool_decide as Hv; [right; split; [in_list|done]|].
  unfold InMemoryStore_Exists. case_bool_decide as He;
    [right; split; [in_list|done]|].
  left. exists value. repeat split; try done.
  destruct (store !! value) eqn:E; [|done]. exfalso. apply He. eauto.
Qed.


(** X4.  Posting the same non-empty value a second time answers 409 and
    changes nothing, whatever the first answer was. *)
Theorem CreateString_twice_conflicts unicode_IsLetter unicode_IsDigit
    unicode_ToLower value now now' store :
  value ≠ [] →
  let store' := (CreateString unicode_IsLetter unicode_IsDigit unicode_ToLower
                   MethodPost (inr value) now store).2 in
  CreateString unicode_IsLetter unicode_IsDigit unicode_ToLower
    MethodPost (inr value) now' store'
  = (writeError 409 (str "Conflict") (str "String already exists"), store').
Proof.
  intros Hv store'.
  assert (Hin : is_Some (store' !! value)).
  { subst store'.
    destruct (CreateString_cases unicode_IsLetter unicode_IsDigit unicode_ToLower
                MethodPost (inr value) now store)
      as [(v & [= <-] & _ & _ & Hs & ->)|[Hst Hsame]].
    - cbn [snd]. rewrite lookup_insert_eq. eauto.
    - rewrite Hsame. revert Hst. unfold CreateString.
      rewrite bool_decide_eq_true_2 by done. cbn [negb].
      rewrite bool_decide_eq_false_2 by done.
      unfold InMemoryStore_Exists. case_bool_decide as He; [done|].
      cbn. intros Hst. by apply created_is_no_error in Hst. }
  unfold CreateString. rewrite bool_decide_eq_true_2 by done. cbn [negb].
  rewrite bool_decide_eq_false_2 by done.
  unfold InMemoryStore_Exists. by rewrite bool_decide_eq_true_2.
Qed.

(** X5.  After a 201 for a value without "%", a GET for "/strings/" followed
    by the value answers 200 with the resource the POST returned. *)
Theorem CreateString_then_GetString unicode_IsLetter unicode_IsDigit
    unicode_ToLower value now store :
  "%"%char ∉ value →
  let r := CreateString unicode_IsLetter unicode_IsDigit unicode_ToLower
             MethodPost (inr value) now store in
  StatusCode r.1 = 201 →
  ∃ res, r.1 = writeJSON 201 (Resource res)
       ∧ GetString MethodGet (str "/strings/" ++ value) r.2
         = writeJSON 200 (Resource res)
       ∧ Value res = value ∧ ID res = SHA256Hash (Props res).
Proof.
  intros Hp r Hst. subst r.
  destruct (CreateString_cases unicode_IsLetter unicode_IsDigit unicode_ToLower
              MethodPost (inr value) now store)
    as [(v & [= <-] & _ & Hv & Hs & Hr)|[Hcode _]].
  - rewrite Hr. cbn [fst snd]. eexists. split; [reflexivity|].
    rewrite GetString_path, url_PathUnescape_plain by done.
    rewrite lookup_insert_eq. done.
  - rewrite Hst in Hcode. by apply created_is_no_error in Hcode.
Qed.

Lemma DeleteString_cases method path store :
  let r := DeleteString method path store in
  let path' := strings_TrimPrefix path (str "/strings/") in
  (∃ value,
      method = MethodDelete
      ∧ bool_decide (path' = []) || bool_decide (path' = path) = false
      ∧ url_PathUnescape path' = Some value
      ∧ is_Some (store !! value)
      ∧ r = ({| StatusCode := 204; ResponseBody := NoBody |}, delete value store))
  ∨ (StatusCode r.1 ∈ [405; 400; 404] ∧ r.2 = store).
Proof.
  cbv zeta. unfold DeleteString.
  destruct (bool_decide (method = MethodDelete)) eqn:Hm; cbn [negb];
    [apply bool_decide_eq_true_1 in Hm|right; split; [in_list|done]].
  destruct (bool_decide (_ = []) || bool_decide (_ = path)) eqn:Eb;
    [right; split; [in_list|done]|].
  destruct (url_PathUnescape _) as [value|] eqn:E;
    [|right; split; [in_list|done]].
  unfold InMemoryStore_Delete. destruct (store !! value) as [res|] eqn:Es.
  - left. exists value. repeat split; try done; eauto.
  - right. split; [in_list|done].
Qed.

Lemma deleted_is_no_error : 204 ∉ [405; 400; 404].
Proof.
  intros H. repeat (apply elem_of_cons in H as [H|H]; [done|]).
  by apply elem_of_nil in H.
Qed.

(** X6.  [DeleteString] either answers 204 and removes exactly the entry
    filed under the decoded rest of the path, which was present, or answers
    405, 400 or 404 and leaves the store as it was.  No other entry is
    touched. *)
Theorem DeleteString_removes_one method path store :
  let r := DeleteString method path store in
  (StatusCode r.1 = 204
   ∧ ∃ value,
       url_PathUnescape (strings_TrimPrefix path (str "/strings/")) = Some value
       ∧ is_Some (store !! value)
       ∧ r.2 !! value = None
       ∧ ∀ key, key ≠ value → r.2 !! key = store !! key)
  ∨ (StatusCode r.1 ∈ [405; 400; 404] ∧ r.2 = store).
Proof.
  intros r. subst r.
  destruct (DeleteString_cases method path store)
    as [(value & _ & _ & Hp & Hs & ->)|H]; [|by right].
  left. split; [done|]. exists value. cbn [snd].
  split; [done|]. split; [done|]. split; [apply lookup_delete_eq|].
  intros key Hk. by apply lookup_delete_ne.
Qed.

(** X7.  After a 204 for a path, a GET for the same path answers 404 and a
    second DELETE answers 404 without changing the store. *)
Theorem DeleteString_then_gone path store :
  StatusCode (DeleteString MethodDelete path store).1 = 204 →
  let store' := (DeleteString MethodDelete path store).2 in
  GetString MethodGet path store'
  = writeError 404 (str "Not Found") (str "String not found")
  ∧ DeleteString MethodDelete path store'
    = (writeError 404 (str "Not Found") (str "String not found"), store').
Proof.
  intros Hst store'. subst store'.
  destruct (DeleteString_cases MethodDelete path store)
    as [(value & _ & Hb & Hp & Hs & Hr)|[Hcode _]].
  2:{ rewrite Hst in Hcode. by apply deleted_is_no_error in Hcode. }
  rewrite Hr. cbn [snd]. clear Hst Hr.
  unfold GetString, DeleteString.
  rewrite !bool_decide_eq_true_2 by done. cbn [negb].
  rewrite Hb, Hp. unfold InMemoryStore_Get, InMemoryStore_Delete.
  by rewrite lookup_delete_eq.
Qed.

(** ** The invariant of the store *)

Lemma run_snoc unicode_IsLetter unicode_IsDigit unicode_ToLower reqs req :
  run unicode_IsLetter unicode_IsDigit unicode_ToLower (reqs ++ [req])
  = (serve unicode_IsLetter unicode_IsDigit unicode_ToLower
       (run unicode_IsLetter unicode_IsDigit unicode_ToLower reqs) req).2.
Proof. unfold run. by rewrite foldl_snoc. Qed.

Lemma HandleStringValue_cases method path store :
  let r := HandleStringValue method path store in
  r.2 = store ∨ (method = MethodDelete ∧ r = DeleteString method path store).
Proof.
  cbv zeta. unfold HandleStringValue.
  destruct (_ || _); [by left|].
  case_bool_decide; [by left|]. case_bool_decide; [by right|by left].
Qed.

Lemma serve_keeps unicode_IsLetter unicode_IsDigit unicode_ToLower
    (P : gostring → StringResource → Prop) store req :
  (∀ value now,
      value ≠ [] →
      P value (new_resource (ComputeProperties unicode_IsLetter unicode_IsDigit
                               unicode_ToLower value) value now)) →
  map_Forall P store →
  map_Forall P (serve unicode_IsLetter unicode_IsDigit unicode_ToLower store req).2.
Proof.
  intros Hnew Hs. destruct req as [method decoded now|method path|method path];
    cbn [serve].
  - destruct (CreateString_cases unicode_IsLetter unicode_IsDigit unicode_ToLower
                method decoded now store)
      as [(value & _ & _ & Hv & _ & ->)|[_ ->]]; [|done].
    cbn [snd]. apply map_Forall_insert_2; [by apply Hnew|done].
  - destruct (DeleteString_cases method path store)
      as [(value & _ & _ & _ & _ & ->)|[_ ->]]; [|done].
    cbn [snd]. by apply map_Forall_delete.
  - destruct (HandleStringValue_cases method path store) as [->|[_ ->]]; [done|].
    destruct (DeleteString_cases method path store)
      as [(value & _ & _ & _ & _ & ->)|[_ ->]]; [|done].
    cbn [snd]. by apply map_Forall_delete.
Qed.

(** X8.  Whatever calls of [CreateString], [DeleteString] and
    [HandleStringValue] a new store has served, every entry is filed under
    its own value, which is not empty, carries the properties computed from
    that value, and has their hash as its ID. *)
Theorem store_invariant unicode_IsLetter unicode_IsDigit unicode_ToLower reqs :
  let store := run unicode_IsLetter unicode_IsDigit unicode_ToLower reqs in
  store_ok unicode_IsLetter unicode_IsDigit unicode_ToLower store
  ∧ store !! [] = None.
Proof.
  cbv zeta.
  assert (H : map_Forall
                (λ key res,
                   key ≠ []
                   ∧ Value res = key
                   ∧ Props res = ComputeProperties unicode_IsLetter
                                   unicode_IsDigit unicode_ToLower key
                   ∧ ID res = SHA256Hash (Props res))
                (run unicode_IsLetter unicode_IsDigit unicode_ToLower reqs)).
  { induction reqs as [|req reqs IH] using rev_ind; [apply map_Forall_empty|].
    rewrite run_snoc. apply serve_keeps; [|done]. by intros value now Hv. }
  split.
  - intros key res Hk. by destruct (H key res Hk) as (_ & ? & ? & ?).
  - destruct (run _ _ _ reqs !! []) as [res|] eqn:E; [|done].
    by destruct (H [] res E) as [? _].
Qed.

(** X9.  [HandleStringValue] answers the two reserved paths with 404
    whatever the method, and changes the store only when the method is
    DELETE and the answer is 204. *)
Theorem HandleStringValue_writes_only_on_delete method path store :
  let r := HandleStringValue method path store in
  (path = str "/strings/list" ∨ path = str "/strings/filter-by-natural-language" →
   r = (http_NotFound, store))
  ∧ (r.2 ≠ store → method = MethodDelete ∧ StatusCode r.1 = 204)
  ∧ (method ≠ MethodGet → method ≠ MethodDelete → StatusCode r.1 ∈ [404; 405]).
Proof.
  intros r. subst r. split; [|split].
  - unfold HandleStringValue. intros [->| ->].
    + by rewrite bool_decide_eq_true_2.
    + rewrite (bool_decide_eq_true_2 (_ = str "/strings/filter-by-natural-language")) by done.
      by rewrite orb_true_r.
  - intros Hne. destruct (HandleStringValue_cases method path store)
      as [Hsame|[Hm Hr]]; [done|]. split; [done|]. rewrite Hr in *.
    destruct (DeleteString_cases method path store)
      as [(value & _ & _ & _ & _ & ->)|[_ Hsame]]; [done|done].
  - intros Hg Hd. unfold HandleStringValue.
    destruct (_ || _); [in_list|].
    rewrite !bool_decide_eq_false_2 by done. in_list.
Qed.

(** ** Listing *)

Lemma List_paginate f order visit limit offset :
  well_typed f → (∀ k, range_map f (visit k)) →
  List order visit limit offset = paginate (matching f order) limit offset.
Proof.
  intros Hf Hv. unfold List.
  by rewrite (collect_matching f visit order 0 [] Hf Hv).
Qed.

Lemma take_drop_window {A} (l : list A) (lo hi : nat) :
  (lo <= hi)%nat →
  take (hi `min` length l - lo) (drop lo l) = take (hi - lo) (drop lo l).
Proof.
  intros H. destruct (decide (hi <= length l)%nat) as [Hle|Hgt].
  - by rewrite Nat.min_l by done.
  - rewrite Nat.min_r by lia.
    rewrite !take_ge; [done|rewrite length_drop; lia..].
Qed.

(** Within the range of [int] the page is the window of [limit] items from
    [offset] on. *)
Lemma paginate_window (all : list StringResource) limit offset :
  0 <= limit → 0 <= offset → offset + limit <= max_int →
  paginate all limit offset
  = Some (take (Z.to_nat limit) (drop (Z.to_nat offset) all),
          Z.of_nat (length all)).
Proof.
  intros Hl Ho Hsum. unfold paginate.
  rewrite int_wrap_id by (unfold is_int, min_int, max_int in *; lia).
  destruct (offset >? Z.of_nat (length all)) eqn:Hgt.
  - apply Z.gtb_lt in Hgt. rewrite drop_ge by lia. by rewrite take_nil.
  - rewrite Z.gtb_ltb in Hgt. apply Z.ltb_ge in Hgt.
    set (end_ := if offset + limit >? Z.of_nat (length all)
                 then Z.of_nat (length all) else offset + limit).
    assert (Hend : end_ = Z.min (offset + limit) (Z.of_nat (length all))).
    { unfold end_. destruct (offset + limit >? _) eqn:E.
      - apply Z.gtb_lt in E. lia.
      - rewrite Z.gtb_ltb in E. apply Z.ltb_ge in E. lia. }
    rewrite slice_in_range by lia. cbn [mbind option_bind]. do 2 f_equal.
    unfold sublist. rewrite Hend.
    replace (Z.to_nat (Z.min (offset + limit) (Z.of_nat (length all)) - offset))
      with ((Z.to_nat (offset + limit) `min` length all) - Z.to_nat offset)%nat
      by lia.
    rewrite take_drop_window by lia. f_equal. lia.
Qed.

(** Whatever the arguments, a page that is returned is a stretch of the
    list it is cut from. *)
Lemma paginate_sublist (all : list StringResource) limit offset data count :
  paginate all limit offset = Some (data, count) →
  count = Z.of_nat (length all) ∧ data `sublist_of` all.
Proof.
  unfold paginate. destruct (offset >? _).
  - intros [= <- <-]. split; [done|]. apply sublist_nil_l.
  - unfold slice. case_match; [|done]. cbn [mbind option_bind].
    intros [= <- <-]. split; [done|].
    etrans; [apply sublist_take|apply sublist_drop].
Qed.

Lemma range_store_length store order :
  range_store store order → length order = size store.
Proof.
  unfold range_store. intros ->. by rewrite length_fmap, length_map_to_list.
Qed.

Lemma range_store_elem store order res :
  range_store store order → res ∈ order ↔ ∃ key, store !! key = Some res.
Proof.
  unfold range_store. intros ->. rewrite list_elem_of_fmap. split.
  - intros ([key r] & -> & Hin). exists key. by apply elem_of_map_to_list.
  - intros [key Hk]. exists (key, res). split; [done|].
    by apply elem_of_map_to_list.
Qed.

Lemma matching_elem f order res :
  res ∈ matching f order ↔ satisfies (Props res) f ∧ res ∈ order.
Proof. unfold matching. by rewrite list_elem_of_filter. Qed.

Lemma matching_all order : matching ∅ order = order.
Proof.
  unfold matching. induction order as [|res order IH]; [done|].
  rewrite filter_cons_True; [by rewrite IH|].
  unfold satisfies, sat_is_palindrome, sat_min_length, sat_max_length,
    sat_word_count, sat_contains_character. by rewrite !lookup_empty.
Qed.

(** X13.  Without filters, and with [limit >= 1], [offset >= 0] and their
    sum within [int], [List] counts every resource of the store and returns
    the window of [limit] resources from [offset] on in the visiting
    order. *)
Theorem List_without_filters store order visit limit offset :
  range_store store order → (∀ k, range_map (∅ : gmap gostring any) (visit k)) →
  1 <= limit → 0 <= offset → offset + limit <= max_int →
  List order visit limit offset
  = Some (take (Z.to_nat limit) (drop (Z.to_nat offset) order),
          Z.of_nat (size store)).
Proof.
  intros Hs Hv Hl Ho Hsum.
  rewrite (List_paginate ∅) by (done || apply well_typed_empty).
  rewrite paginate_window by lia. rewrite matching_all.
  by rewrite (range_store_length store order).
Qed.


(** X15.  Whatever [limit] and [offset] are, when [List] returns, the count
    is the number of resources of the store that pass the filters, and the
    page holds at most that many resources, each one an entry of the store
    that passes the filters, in the visiting order. *)
Theorem List_results_sound store f order visit limit offset data count :
  well_typed f → range_store store order → (∀ k, range_map f (visit k)) →
  List order visit limit offset = Some (data, count) →
  count = Z.of_nat (length (matching f (map_to_list store).*2))
  ∧ data `sublist_of` order
  ∧ Z.of_nat (length data) <= count
  ∧ ∀ res, res ∈ data →
      satisfies (Props res) f ∧ ∃ key, store !! key = Some res.
Proof.
  intros Hf Hs Hv HL. rewrite (List_paginate f) in HL by done.
  apply paginate_sublist in HL as [-> Hsub].
  split; [f_equal; by apply matching_length_order|].
  split; [etrans; [done|apply sublist_filter]|].
  split; [apply inj_le; by apply stdpp.list_relations.list.sublist_length|].
  intros res Hin.
  assert (Hm : res ∈ matching f order) by (by eapply elem_of_sublist).
  apply matching_elem in Hm as [Hsat Hord]. split; [done|].
  by apply (range_store_elem store order).
Qed.

(** ** The list endpoint *)

Lemma non_negative_param_validated val key message f f' :
  non_negative_param val key message f = inr f' →
  key ∈ [k_min_length; k_max_length; k_word_count] →
  map_Forall validated_filter f → map_Forall validated_filter f'.
Proof.
  unfold non_negative_param. intros H Hk Hf.
  case_bool_decide; [by simplify_eq|].
  destruct (Atoi val) as [n|] eqn:E; [|done].
  destruct (n <? 0) eqn:En; [done|]. simplify_eq.
  apply map_Forall_insert_2; [|done]. right. left. split; [done|].
  exists n. split; [done|]. apply Atoi_is_int in E. apply Z.ltb_ge in En.
  unfold is_int in E. lia.
Qed.

Lemma ListStrings_request_validated q f limit offset :
  ListStrings_request q = CallList f limit offset →
  map_Forall validated_filter f.
Proof.
  unfold ListStrings_request. intros H.
  do 7 next_param H. injection H as <- _ _.
  apply non_negative_param_validated in E0; [|in_list|].
  2:{ clear -E. repeat case_match; simplify_eq; [apply map_Forall_empty|].
      apply map_Forall_insert_2; [|apply map_Forall_empty].
      left. eauto. }
  apply non_negative_param_validated in E1; [|in_list|done].
  apply non_negative_param_validated in E2; [|in_list|done].
  clear -E2 E3. repeat case_match; simplify_eq; [done|].
  apply map_Forall_insert_2; [|done]. right. right. split; [done|].
  eexists. split; [done|].
  destruct (decide (length (runes (q_contains_character q)) = 1%nat)); [done|].
  by rewrite bool_decide_eq_true_2 in H0.
Qed.

Lemma ListStrings_request_page q f limit offset :
  ListStrings_request q = CallList f limit offset →
  1 <= limit <= 100 ∧ 0 <= offset <= max_int.
Proof.
  unfold ListStrings_request. intros H.
  do 7 next_param H. injection H as _ <- <-.
  clear -E4 E5. split.
  - repeat case_match; simplify_eq; bools; lia.
  - repeat case_match; simplify_eq; bools; unfold max_int; try lia.
    all: match goal with H : Atoi _ = Some _ |- _ => apply Atoi_is_int in H end.
    all: unfold is_int, max_int in *; lia.
Qed.

(** X10.  When [ListStrings] goes on to call the store, every filter it
    passes is a boolean under is_palindrome, an [int] from 0 up under
    min_length, max_length or word_count, or a string of exactly one
    character under contains_character, and nothing else; [limit] is
    within 1..100 and [offset] is not negative. *)
Theorem ListStrings_passes_validated_parameters q f limit offset :
  ListStrings_request q = CallList f limit offset →
  map_Forall validated_filter f ∧ 1 <= limit <= 100 ∧ 0 <= offset <= max_int.
Proof.
  intros H. split; [by eapply ListStrings_request_validated|].
  by eapply ListStrings_request_page.
Qed.

Lemma paginate_bounded (all : list StringResource) limit offset :
  0 <= limit <= 100 → 0 <= offset →
  Z.of_nat (length all) + 100 <= max_int →
  paginate all limit offset
  = Some (take (Z.to_nat limit) (drop (Z.to_nat offset) all),
          Z.of_nat (length all)).
Proof.
  intros Hl Ho Hlen.
  destruct (decide (offset + limit <= max_int)) as [Hsum|Hsum];
    [apply paginate_window; lia|].
  unfold paginate.
  replace (offset >? Z.of_nat (length all)) with true
    by (symmetry; apply Z.gtb_lt; lia).
  rewrite drop_ge by lia. by rewrite take_nil.
Qed.

(** X11.  With fewer than 2^63 - 100 resources in the store, a GET on the
    list endpoint never panics: it answers 400 with the message of the
    first invalid parameter, or 200 with the filters it applied, the number
    of resources that pass them, and the window of at most [limit] of them
    from [offset] on. *)
Theorem ListStrings_answers q store order visit :
  range_store store order →
  (∀ f limit offset, ListStrings_request q = CallList f limit offset →
                     ∀ k, range_map f (visit k)) →
  Z.of_nat (size store) + 100 <= max_int →
  match ListStrings_request q with
  | BadRequest message =>
    ListStrings MethodGet q order visit
    = Some (writeError 400 (str "Bad Request") message)
  | CallList f limit offset =>
    ListStrings MethodGet q order visit
    = Some (writeJSON 200
              (ListResponse
                 (take (Z.to_nat limit) (drop (Z.to_nat offset) (matching f order)))
                 (Z.of_nat (length (matching f order))) f))
    ∧ (length (take (Z.to_nat limit) (drop (Z.to_nat offset) (matching f order)))
       <= Z.to_nat limit)%nat
  end.
Proof.
  intros Hs Hv Hsize. unfold ListStrings.
  rewrite bool_decide_eq_true_2 by done. cbn [negb].
  destruct (ListStrings_request q) as [message|f limit offset] eqn:E; [done|].
  destruct (ListStrings_request_page q f limit offset E) as [Hl Ho].
  pose proof (ListStrings_request_typed q f limit offset E) as Hf.
  rewrite (List_paginate f) by eauto.
  rewrite paginate_bounded; [|lia|lia|].
  - cbn [mbind option_bind]. split; [done|]. rewrite length_take. lia.
  - pose proof (length_filter (λ res, satisfies (Props res) f) order) as Hle.
    fold (matching f order) in Hle.
    rewrite <- (range_store_length store order Hs) in Hsize. lia.
Qed.

(** X12.  A GET on the natural-language endpoint with a non-empty query
    never panics and never answers 400: it answers 200 with the parsed
    filters, the number of resources that pass them and the first 25 of
    them.  With an empty query it answers 400. *)
Theorem FilterByNaturalLanguage_answers unicode_ToLower query order visit :
  ∃ f, parseNaturalLanguageQuery unicode_ToLower query = Some (f, None)
    ∧ ((∀ k, range_map f (visit k)) →
       FilterByNaturalLanguage unicode_ToLower MethodGet query order visit
       = Some (if bool_decide (query = [])
               then writeError 400 (str "Bad Request")
                      (str "Missing required query parameter: query")
               else writeJSON 200
                      (NaturalLanguageResponse
                         (take 25 (matching f order))
                         (Z.of_nat (length (matching f order))) query f))).
Proof.
  eexists. split; [apply parse_spec|]. intros Hv.
  unfold FilterByNaturalLanguage.
  rewrite bool_decide_eq_true_2 by done. cbn [negb].
  case_bool_decide; [done|]. rewrite parse_spec. cbn [mbind option_bind].
  rewrite (List_paginate _ order visit 25 0 (spec_filters_typed _ _) Hv).
  rewrite paginate_window by (unfold max_int; lia). done.
Qed.

(** ** What the filters say about the stored strings *)

Lemma freqMap_of_dom value k :
  k ∈ dom (freqMap_of value) ↔ ∃ r, r ∈ runes value ∧ k = EncodeRune r.
Proof.
  unfold freqMap_of. rewrite elem_of_dom, foldl_freq_lookup. cbv zeta.
  rewrite lookup_empty. case_decide as Hc.
  - split; [by intros [? ?]|]. intros (r & Hr & ->). exfalso.
    revert Hc. apply filter_length_pos. eauto.
  - split; [|eauto]. intros _.
    apply filter_length_pos in Hc as (r & Hr & <-). eauto.
Qed.

(** X16.  In a store that keeps its invariant, the filters hold of the
    strings themselves: every listed resource has at least min_length and
    at most max_length bytes, exactly word_count fields, the palindrome
    status asked for, and, for contains_character, a code point whose
    string is the given one. *)
Theorem listed_values_pass_the_filters unicode_IsLetter unicode_IsDigit
    unicode_ToLower store f order visit limit offset data count res :
  store_ok unicode_IsLetter unicode_IsDigit unicode_ToLower store →
  well_typed f → range_store store order → (∀ k, range_map f (visit k)) →
  List order visit limit offset = Some (data, count) →
  res ∈ data →
  store !! Value res = Some res
  ∧ (∀ b, f !! k_is_palindrome = Some (VBool b) →
       isPalindrome unicode_IsLetter unicode_IsDigit unicode_ToLower (Value res) = b)
  ∧ (∀ n, f !! k_min_length = Some (VInt n) → n <= Z.of_nat (length (Value res)))
  ∧ (∀ n, f !! k_max_length = Some (VInt n) → Z.of_nat (length (Value res)) <= n)
  ∧ (∀ n, f !! k_word_count = Some (VInt n) → countWords (Value res) = n)
  ∧ (∀ c, f !! k_contains_character = Some (VString c) →
       ∃ r, r ∈ runes (Value res) ∧ c = EncodeRune r).
Proof.
  intros Hok Hf Hs Hv HL Hin. rewrite (List_paginate f) in HL by done.
  apply paginate_sublist in HL as [_ Hsub].
  assert (Hm : res ∈ matching f order) by (by eapply elem_of_sublist).
  apply matching_elem in Hm as [Hsat Hord].
  apply (range_store_elem store order res Hs) in Hord as [key Hkey].
  destruct (Hok key res Hkey) as (Hval & Hprops & _). subst key.
  split; [done|].
  destruct Hsat as (Hp & Hmin & Hmax & Hw & Hc). rewrite Hprops in *.
  unfold sat_is_palindrome, sat_min_length, sat_max_length, sat_word_count,
    sat_contains_character in *.
  cbn [ComputeProperties IsPalindrome Length WordCount CharacterFrequencyMap] in *.
  repeat split.
  - intros b Hb. by rewrite Hb in Hp.
  - intros n Hn. rewrite Hn in Hmin. lia.
  - intros n Hn. by rewrite Hn in Hmax.
  - intros n Hn. by rewrite Hn in Hw.
  - intros c Hcc. rewrite Hcc in Hc. by apply freqMap_of_dom.
Qed.

(** X17.  Filters that no resource can pass are no error: with min_length
    above max_length, [List] returns an empty page and the count 0. *)
Theorem List_impossible_range f order visit limit offset n m :
  well_typed f → (∀ k, range_map f (visit k)) →
  f !! k_min_length = Some (VInt n) → f !! k_max_length = Some (VInt m) →
  m < n →
  1 <= limit → 0 <= offset → offset + limit <= max_int →
  List order visit limit offset = Some ([], 0).
Proof.
  intros Hf Hv Hn Hm Hlt Hl Ho Hsum.
  rewrite (List_paginate f) by done. rewrite paginate_window by lia.
  assert (Hnone : matching f order = []).
  { unfold matching. induction order as [|res order IH]; [done|].
    rewrite filter_cons_False; [done|].
    intros (_ & Hmin & Hmax & _). unfold sat_min_length, sat_max_length in *.
    rewrite Hn in Hmin. rewrite Hm in Hmax. lia. }
  rewrite Hnone. by rewrite drop_nil, take_nil.
Qed.

Lemma satisfies_subseteq (p : Properties) (f f' : gmap gostring any) :
  f ⊆ f' → satisfies p f' → satisfies p f.
Proof.
  intros Hsub (Hp & Hmin & Hmax & Hw & Hc).
  unfold satisfies, sat_is_palindrome, sat_min_length, sat_max_length,
    sat_word_count, sat_contains_character in *.
  repeat split;
    match goal with
    | |- match f !! ?k with _ => _ end =>
      destruct (f !! k) as [v|] eqn:E; [|done];
      rewrite (lookup_weaken f f' k v E Hsub) in *; done
    end.
Qed.

Lemma matching_subseteq_length (f f' : gmap gostring any) order :
  f ⊆ f' → (length (matching f' order) <= length (matching f order))%nat.
Proof.
  intros Hsub. unfold matching. induction order as [|res order IH]; [done|].
  rewrite !filter_cons.
  destruct (decide (satisfies (Props res) f')) as [H'|H'].
  - rewrite decide_True by (by eapply satisfies_subseteq). cbn [length]. lia.
  - destruct (decide (satisfies (Props res) f)); cbn [length]; lia.
Qed.

(** X18.  Filters combine by conjunction: adding filters to a set never
    adds a resource.  The resources counted under the larger set are all
    counted under the smaller one, so the count does not grow. *)
Theorem List_more_filters_fewer_results f f' order visit visit'
    limit offset limit' offset' data count data' count' :
  f ⊆ f' → well_typed f → well_typed f' →
  (∀ k, range_map f (visit k)) → (∀ k, range_map f' (visit' k)) →
  List order visit limit offset = Some (data, count) →
  List order visit' limit' offset' = Some (data', count') →
  count' <= count ∧ ∀ res, res ∈ data' → satisfies (Props res) f.
Proof.
  intros Hsub Hf Hf' Hv Hv' HL HL'.
  rewrite (List_paginate f) in HL by done.
  rewrite (List_paginate f') in HL' by done.
  apply paginate_sublist in HL as [-> _].
  apply paginate_sublist in HL' as [-> Hsub'].
  split.
  - apply inj_le. by apply matching_subseteq_length.
  - intros res Hin.
    assert (Hm : res ∈ matching f' order) by (by eapply elem_of_sublist).
    apply matching_elem in Hm as [Hsat _]. by eapply satisfies_subseteq.
Qed.

(** ** The property computer: bounds, digest format, words, palindromes *)

Lemma size_freq_incr m r : (size (freq_incr m r) <= S (size m))%nat.
Proof.
  unfold freq_incr. rewrite map_size_insert.
  destruct (m !! EncodeRune r); simpl; lia.
Qed.

Lemma size_foldl_freq l m :
  (size (foldl freq_incr m l) <= size m + length l)%nat.
Proof.
  revert m. induction l as [|r l IH]; intros m; cbn [foldl length]; [lia|].
  specialize (IH (freq_incr m r)). pose proof (size_freq_incr m r). lia.
Qed.

Lemma fields_of_length cs cur :
  (length (fields_of cs cur)
   <= length cs + (if cur is Some _ then 1 else 0))%nat.
Proof.
  revert cur. induction cs as [|[r bs] cs IH]; intros cur; cbn [fields_of].
  - destruct cur; simpl; lia.
  - destruct (unicode_IsSpace r).
    + specialize (IH None). destruct cur; cbn [length] in *; lia.
    + specialize (IH (Some (default [] cur ++ bs))).
      destruct cur; cbn [length] in *; lia.
Qed.

Lemma filter_length_le {A} (P : A → Prop) `{∀ x, Decision (P x)} (l : list A) :
  (length (filter P l) <= length l)%nat.
Proof. apply length_filter. Qed.

(** X19. Of the computed properties of any string: the number of distinct
    characters is at most the number of runes, which is at most the byte
    length; the word count is between 0 and the byte length; every count in
    the frequency map is at least 1 and at most the byte length; and the
    length is 0 exactly for the empty string. *)
Theorem ComputeProperties_bounds unicode_IsLetter unicode_IsDigit unicode_ToLower
    (value : gostring) :
  let p := ComputeProperties unicode_IsLetter unicode_IsDigit unicode_ToLower
             value in
  0 <= UniqueCharacters p <= Z.of_nat (length (runes value))
  ∧ Z.of_nat (length (runes value)) <= Length p
  ∧ 0 <= WordCount p <= Length p
  ∧ (∀ k n, CharacterFrequencyMap p !! k = Some n → 1 <= n <= Length p)
  ∧ (Length p = 0 ↔ value = []).
Proof.
  cbn [ComputeProperties UniqueCharacters Length WordCount CharacterFrequencyMap].
  pose proof (runes_length_le value) as Hr.
  split; [|split; [|split; [|split]]].
  - unfold freqMap_of. pose proof (size_foldl_freq (runes value) ∅) as Hs.
    rewrite map_size_empty in Hs. split; [lia|].
    apply Nat2Z.inj_le. exact Hs.
  - lia.
  - unfold countWords, strings_Fields.
    pose proof (fields_of_length (range_string value) None) as Hf.
    cbn beta iota in Hf. unfold runes in Hr. rewrite length_fmap in Hr. lia.
  - intros k n. unfold freqMap_of. rewrite foldl_freq_lookup. cbv zeta.
    rewrite lookup_empty. case_decide as Hc; [done|].
    intros [= <-]. cbn [default from_option id].
    pose proof (filter_length_le (λ r, EncodeRune r = k) (runes value)). lia.
  - split; [|by intros ->]. intros H. apply length_zero_iff_nil. lia.
Qed.

Lemma round_length st kw : length (SHA256.round st kw) = length st.
Proof.
  unfold SHA256.round.
  destruct st as [|a [|b [|c [|d [|e [|f [|g [|h [|]]]]]]]]]; done.
Qed.

Lemma foldl_round_length kws st :
  length (foldl SHA256.round st kws) = length st.
Proof.
  revert st. induction kws as [|kw kws IH]; intros st; cbn [foldl]; [done|].
  by rewrite IH, round_length.
Qed.

Lemma compress_length h block : length (SHA256.compress h block) = length h.
Proof.
  unfold SHA256.compress. rewrite length_zip_with, foldl_round_length. lia.
Qed.

Lemma compress_words h block :
  Forall (λ x, 0 <= x < 2 ^ 32) (SHA256.compress h block).
Proof.
  unfold SHA256.compress. apply Forall_forall. intros z Hz.
  apply elem_of_zip_with in Hz as (x & y & -> & _).
  unfold SHA256.w32. apply Z.mod_pos_bound. lia.
Qed.

Lemma foldl_compress_state blocks h :
  length h = 8%nat → Forall (λ x, 0 <= x < 2 ^ 32) h →
  length (foldl SHA256.compress h blocks) = 8%nat
  ∧ Forall (λ x, 0 <= x < 2 ^ 32) (foldl SHA256.compress h blocks).
Proof.
  revert h. induction blocks as [|b blocks IH]; intros h Hl Hw; cbn [foldl].
  - done.
  - apply IH; [by rewrite compress_length|apply compress_words].
Qed.

Lemma to_big_endian_length n z : length (SHA256.to_big_endian n z) = n.
Proof.
  revert z. induction n as [|n IH]; intros z; cbn [SHA256.to_big_endian]; [done|].
  rewrite length_app, IH. simpl. lia.
Qed.

Lemma to_big_endian_bytes n z :
  Forall (λ b, 0 <= b < 256) (SHA256.to_big_endian n z).
Proof.
  revert z. induction n as [|n IH]; intros z; cbn [SHA256.to_big_endian].
  - constructor.
  - apply Forall_app. split; [apply IH|].
    constructor; [|constructor]. apply Z.mod_pos_bound. lia.
Qed.

Lemma bind_length_const {A B} (g : A → list B) n (l : list A) :
  (∀ x, length (g x) = n) → length (l ≫= g) = (n * length l)%nat.
Proof.
  intros Hg. induction l as [|x l IH]; [simpl; lia|].
  cbn [mbind list_bind]. fold (l ≫= g).
  rewrite length_app, Hg, IH. cbn [length]. lia.
Qed.

Lemma Sum256_bytes msg :
  length (SHA256.Sum256 msg) = 32%nat
  ∧ Forall (λ b, 0 <= b < 256) (SHA256.Sum256 msg).
Proof.
  unfold SHA256.Sum256. cbv zeta.
  set (blocks := SHA256.chunks _ _ _).
  destruct (foldl_compress_state blocks SHA256.H0) as [Hl Hw].
  { done. }
  { unfold SHA256.H0. repeat constructor; lia. }
  split.
  - rewrite (bind_length_const _ 4); [lia|].
    intros x. apply to_big_endian_length.
  - apply Forall_bind. apply Forall_forall. intros x _.
    apply to_big_endian_bytes.
Qed.

Lemma hex_digit_lower z : 0 <= z < 16 → hex_digit z ∈ lower_hex.
Proof.
  intros Hz.
  assert (H : z = 0 ∨ z = 1 ∨ z = 2 ∨ z = 3 ∨ z = 4 ∨ z = 5 ∨ z = 6 ∨ z = 7
              ∨ z = 8 ∨ z = 9 ∨ z = 10 ∨ z = 11 ∨ z = 12 ∨ z = 13 ∨ z = 14
              ∨ z = 15) by lia.
  repeat destruct H as [->|H]; try subst z; vm_compute; in_list.
Qed.

(** X20. The hash of every string, which is also the ID of every created
    resource, is 64 characters long and made of the characters 0-9 and a-f
    only. *)
Theorem SHA256Hash_is_64_lower_hex unicode_IsLetter unicode_IsDigit
    unicode_ToLower (value : gostring) :
  let p := ComputeProperties unicode_IsLetter unicode_IsDigit unicode_ToLower
             value in
  length (SHA256Hash p) = 64%nat
  ∧ Forall (λ c, c ∈ lower_hex) (SHA256Hash p).
Proof.
  cbn [ComputeProperties SHA256Hash].
  destruct (Sum256_bytes value) as [Hl Hb]. unfold hex_EncodeToString. split.
  - rewrite (bind_length_const _ 2); [lia|done].
  - apply Forall_bind. eapply Forall_impl; [exact Hb|].
    intros b Hrange. cbv beta in Hrange.
    apply Forall_cons. split; [apply hex_digit_lower; euclid|].
    apply Forall_cons. split; [apply hex_digit_lower; euclid|].
    apply Forall_nil_2.
Qed.

(** ** Words *)

Lemma fields_of_nil cs cur :
  fields_of cs cur = []
  ↔ cur = None ∧ Forall (λ c, unicode_IsSpace c.1 = true) cs.
Proof.
  revert cur. induction cs as [|[r bs] cs IH]; intros cur; cbn [fields_of].
  - destruct cur; split; try done. by intros [? _].
  - destruct (unicode_IsSpace r) eqn:E.
    + destruct cur as [w|].
      * split; [done|]. by intros [? _].
      * rewrite IH, Forall_cons. cbn [fst]. split; [by intros [_ ?]|].
        by intros [_ [_ ?]].
    + rewrite IH, Forall_cons. cbn [fst]. split; [by intros [? _]|].
      intros [_ [? _]]. congruence.
Qed.

Lemma fields_of_words cs cur :
  (length (fields_of cs cur)
   <= length (filter (λ c, unicode_IsSpace c.1 = false) cs)
      + (if cur is Some _ then 1 else 0))%nat.
Proof.
  revert cur. induction cs as [|[r bs] cs IH]; intros cur; cbn [fields_of].
  - destruct cur; simpl; lia.
  - destruct (unicode_IsSpace r) eqn:E.
    + rewrite filter_cons_False by (cbn [fst]; congruence).
      specialize (IH None). destruct cur; cbn [length] in *; lia.
    + rewrite filter_cons_True by done.
      specialize (IH (Some (default [] cur ++ bs))).
      destruct cur; cbn [length] in *; lia.
Qed.

Lemma fields_of_concat cs cur :
  concat (fields_of cs cur)
  = default [] cur
    ++ concat (filter (λ c, unicode_IsSpace c.1 = false) cs).*2.
Proof.
  revert cur. induction cs as [|[r bs] cs IH]; intros cur; cbn [fields_of].
  - destruct cur; simpl; by rewrite ?app_nil_r.
  - destruct (unicode_IsSpace r) eqn:E.
    + rewrite filter_cons_False by (cbn [fst]; congruence).
      destruct cur as [w|]; cbn [concat]; by rewrite IH.
    + rewrite filter_cons_True by done. rewrite IH.
      cbn [default from_option id fmap list_fmap concat snd].
      by rewrite <- app_assoc.
Qed.

(** X21. countWords returns 0 exactly for the strings all of whose runes are
    white space (the empty string among them), it never returns more than
    the number of runes that are not white space, and the words it counts,
    joined, are the bytes of the string without its white-space runes. *)
Theorem countWords_counts_words (s : gostring) :
  (countWords s = 0 ↔ Forall (λ r, unicode_IsSpace r = true) (runes s))
  ∧ countWords s
    <= Z.of_nat (length (filter (λ r, unicode_IsSpace r = false) (runes s)))
  ∧ concat (strings_Fields s)
    = concat (filter (λ c, unicode_IsSpace c.1 = false) (range_string s)).*2.
Proof.
  unfold countWords, strings_Fields, runes. split; [|split].
  - split.
    + intros H.
      assert (E : fields_of (range_string s) None = [])
        by (apply length_zero_iff_nil; lia).
      apply fields_of_nil in E as [_ E]. by apply Forall_fmap.
    + intros H. apply Forall_fmap in H.
      assert (E : fields_of (range_string s) None = [])
        by (by apply fields_of_nil).
      by rewrite E.
  - pose proof (fields_of_words (range_string s) None) as H.
    cbn beta iota in H.
    assert (E : length (filter (λ r, unicode_IsSpace r = false)
                          (range_string s).*1)
                = length (filter (λ c : Z * gostring,
                                    unicode_IsSpace c.1 = false)
                            (range_string s))).
    { generalize (range_string s). intros l.
      induction l as [|[r bs] l IH]; [done|].
      cbn [fmap list_fmap fst].
      destruct (decide (unicode_IsSpace r = false)) as [Hr|Hr].
      - rewrite !filter_cons_True by done. cbn [length]. f_equal. exact IH.
      - rewrite !filter_cons_False by done. exact IH. }
    rewrite E. lia.
  - by rewrite fields_of_concat.
Qed.

(** ** Palindromes of ASCII strings *)

Lemma byteZ_byte_of z : 0 <= z < 256 → byteZ (byte_of z) = z.
Proof.
  intros Hz. unfold byteZ, byte_of. rewrite Z.mod_small by lia.
  rewrite N_ascii_embedding by lia. lia.
Qed.

Lemma ascii_lower_ascii a : byteZ a < 128 → byteZ (ascii_lower a) < 128.
Proof.
  intros Ha. unfold ascii_lower. case_match; [|done].
  bools. rewrite byteZ_byte_of; lia.
Qed.

Lemma ascii_lower_idemp a : ascii_lower (ascii_lower a) = ascii_lower a.
Proof.
  unfold ascii_lower.
  destruct ((65 <=? byteZ a) && (byteZ a <=? 90)) eqn:E; [|by rewrite E].
  bools. rewrite byteZ_byte_of by lia.
  destruct ((65 <=? byteZ a + 32) && (byteZ a + 32 <=? 90)) eqn:E'; [|done].
  bools. lia.
Qed.

Lemma strings_ToLower_ascii unicode_ToLower s :
  Forall (λ a, byteZ a < 128) s →
  strings_ToLower unicode_ToLower s = ascii_lower <$> s.
Proof.
  intros H. unfold strings_ToLower.
  assert (E : forallb (λ a, byteZ a <? 128) s = true).
  { induction H as [|a s Ha _ IH]; [done|]. cbn [forallb].
    rewrite IH, andb_true_r. lia. }
  by rewrite E.
Qed.

Lemma runes_ascii s :
  Forall (λ a, byteZ a < 128) s → runes s = byteZ <$> s.
Proof.
  unfold runes.
  apply (range_string_ind
           (λ s cs, Forall (λ a, byteZ a < 128) s → cs.*1 = byteZ <$> s));
    [done|].
  intros b t r w E Hw IH Hall.
  apply Forall_cons in Hall as [Hb Ht].
  destruct (DecodeRune_bytes _ _ _ _ E) as [[-> Hr]|Hbig].
  - rewrite Hr by done. cbn [fmap list_fmap fst drop] in *. f_equal.
    by apply IH.
  - assert (Hin : b ∈ take w (b :: t)) by (destruct w; [lia|by left]).
    specialize (Hbig b Hin). lia.
Qed.

Lemma cleaned_runes_ascii unicode_IsLetter unicode_IsDigit unicode_ToLower s :
  Forall (λ a, byteZ a < 128) s →
  cleaned_runes unicode_IsLetter unicode_IsDigit unicode_ToLower s
  = List.filter (λ r, unicode_IsLetter r || unicode_IsDigit r)
      ((λ a, byteZ (ascii_lower a)) <$> s).
Proof.
  intros H. unfold cleaned_runes. rewrite strings_ToLower_ascii by done.
  rewrite runes_ascii.
  - by rewrite <- list_fmap_compose.
  - apply Forall_fmap. eapply Forall_impl; [exact H|].
    intros a Ha. by apply ascii_lower_ascii.
Qed.

Lemma cleaned_runes_ascii_range unicode_IsLetter unicode_IsDigit
    unicode_ToLower s :
  Forall (λ a, byteZ a < 128) s →
  Forall (λ r, 0 <= r < 128)
    (cleaned_runes unicode_IsLetter unicode_IsDigit unicode_ToLower s).
Proof.
  intros H. rewrite cleaned_runes_ascii by done.
  apply Forall_forall. intros r Hr. apply list_elem_of_In in Hr.
  apply List.filter_In in Hr as [Hr _]. apply list_elem_of_In in Hr.
  apply list_elem_of_fmap in Hr as (a & -> & Ha).
  rewrite Forall_forall in H. specialize (H a Ha).
  pose proof (byteZ_range (ascii_lower a)).
  pose proof (ascii_lower_ascii a H). lia.
Qed.

Lemma filter_reverse_bool {A} (p : A → bool) (l : list A) :
  List.filter p (reverse l) = reverse (List.filter p l).
Proof. unfold reverse. rewrite <- !rev_alt. apply List.filter_rev. Qed.

Lemma bool_eq_iff (b1 b2 : bool) : (b1 = true ↔ b2 = true) → b1 = b2.
Proof. destruct b1, b2; intros [H1 H2]; try done; [by rewrite H1|by rewrite H2]. Qed.

(** X22. For a string of ASCII bytes only: the string followed by its own
    reverse is a palindrome, and reversing a string does not change whether
    it is one. *)
Theorem isPalindrome_mirror unicode_IsLetter unicode_IsDigit unicode_ToLower
    (s : gostring) :
  Forall (λ a, byteZ a < 128) s →
  isPalindrome unicode_IsLetter unicode_IsDigit unicode_ToLower
    (s ++ reverse s) = true
  ∧ isPalindrome unicode_IsLetter unicode_IsDigit unicode_ToLower (reverse s)
    = isPalindrome unicode_IsLetter unicode_IsDigit unicode_ToLower s.
Proof.
  intros H.
  assert (Hrev : Forall (λ a, byteZ a < 128) (reverse s))
    by (by apply Forall_reverse).
  assert (Happ : Forall (λ a, byteZ a < 128) (s ++ reverse s))
    by (by apply Forall_app).
  split.
  - apply isPalindrome_ascii; [by apply cleaned_runes_ascii_range|].
    rewrite cleaned_runes_ascii by done.
    rewrite fmap_app, List.filter_app, fmap_reverse, filter_reverse_bool.
    by rewrite reverse_app, reverse_involutive.
  - apply bool_eq_iff.
    rewrite !isPalindrome_ascii by (by apply cleaned_runes_ascii_range).
    rewrite !cleaned_runes_ascii by done.
    rewrite fmap_reverse, filter_reverse_bool, reverse_involutive.
    split; intros E; by rewrite <- E at 1.
Qed.

(** X23. For a string of ASCII bytes only, isPalindrome looks at nothing
    but the lower-cased letters and digits: lowering the ASCII capitals, or
    dropping every byte that (lower-cased) is neither a letter nor a digit,
    does not change the answer. *)
Theorem isPalindrome_ignores_case_and_punctuation unicode_IsLetter
    unicode_IsDigit unicode_ToLower (s : gostring) :
  Forall (λ a, byteZ a < 128) s →
  isPalindrome unicode_IsLetter unicode_IsDigit unicode_ToLower
    (ascii_lower <$> s)
  = isPalindrome unicode_IsLetter unicode_IsDigit unicode_ToLower s
  ∧ isPalindrome unicode_IsLetter unicode_IsDigit unicode_ToLower
      (List.filter (λ a, unicode_IsLetter (byteZ (ascii_lower a))
                         || unicode_IsDigit (byteZ (ascii_lower a))) s)
    = isPalindrome unicode_IsLetter unicode_IsDigit unicode_ToLower s.
Proof.
  intros H.
  assert (Hlow : Forall (λ a, byteZ a < 128) (ascii_lower <$> s)).
  { apply Forall_fmap. eapply Forall_impl; [exact H|].
    intros a Ha. by apply ascii_lower_ascii. }
  assert (Hfil : Forall (λ a, byteZ a < 128)
            (List.filter (λ a, unicode_IsLetter (byteZ (ascii_lower a))
                               || unicode_IsDigit (byteZ (ascii_lower a))) s)).
  { apply Forall_forall. intros a Ha. apply list_elem_of_In in Ha.
    apply List.filter_In in Ha as [Ha _]. apply list_elem_of_In in Ha.
    rewrite Forall_forall in H. by apply H. }
  split; apply bool_eq_iff;
    rewrite !isPalindrome_ascii by (by apply cleaned_runes_ascii_range);
    rewrite !cleaned_runes_ascii by done.
  - rewrite <- list_fmap_compose.
    assert (E : (λ a, byteZ (ascii_lower a)) ∘ ascii_lower
                <$> s = (λ a, byteZ (ascii_lower a)) <$> s).
    { apply list_fmap_ext. intros i a _. cbn. by rewrite ascii_lower_idemp. }
    by rewrite E.
  - assert (E : List.filter (λ r, unicode_IsLetter r || unicode_IsDigit r)
                  ((λ a, byteZ (ascii_lower a)) <$>
                     List.filter (λ a, unicode_IsLetter (byteZ (ascii_lower a))
                         || unicode_IsDigit (byteZ (ascii_lower a))) s)
                = List.filter (λ r, unicode_IsLetter r || unicode_IsDigit r)
                    ((λ a, byteZ (ascii_lower a)) <$> s)).
    { clear. induction s as [|a s IH]; [done|].
      cbn [List.filter fmap list_fmap].
      destruct (unicode_IsLetter (byteZ (ascii_lower a))
                || unicode_IsDigit (byteZ (ascii_lower a))) eqn:E.
      - cbn [List.filter fmap list_fmap]. rewrite E. f_equal. exact IH.
      - exact IH. }
    by rewrite E.
Qed.

(** ** The parser: the palindrome keyword and the keys it writes *)

Lemma index_from_occurs i s sub pre post :
  0 <= i → s = pre ++ sub ++ post → 0 <= index_from i s sub.
Proof.
  revert i s. induction pre as [|a pre IH]; intros i s Hi ->.
  - destruct post as [|? ?], sub as [|? ?]; cbn [app index_from has_prefix];
      try lia.
    + rewrite app_nil_r.
      assert (E : has_prefix (a :: sub) (a :: sub) = true)
        by (apply has_prefix_spec; exists []; by rewrite app_nil_r).
      cbn [has_prefix] in E. rewrite E. lia.
    + assert (E : has_prefix (a0 :: sub) ((a0 :: sub) ++ a :: post) = true)
        by (apply has_prefix_spec; by eexists).
      cbn [has_prefix app] in E. rewrite E. lia.
  - cbn [app index_from].
    destruct (has_prefix sub (a :: pre ++ sub ++ post)); [lia|].
    apply (IH (i + 1)); [lia|done].
Qed.

Lemma strings_Contains_spec s sub :
  strings_Contains s sub = true ↔ ∃ pre post, s = pre ++ sub ++ post.
Proof.
  unfold strings_Contains, strings_Index. split.
  - intros H. apply Z.leb_le in H.
    destruct (index_from_spec 0 s sub) as [E|(n & _ & _ & k & Hk)]; [lia|].
    exists (take n s), k. by rewrite <- Hk, take_drop.
  - intros (pre & post & E). apply Z.leb_le.
    by apply (index_from_occurs 0 s sub pre post).
Qed.

Lemma put_filter_lookup_Some (k k' : gostring) (v : option any)
    (f : gmap gostring any) x :
  put_filter k v f !! k' = Some x → k' = k ∨ f !! k' = Some x.
Proof.
  destruct (decide (k = k')) as [->|Hne]; [by left|].
  rewrite lookup_put_filter_ne by done. by right.
Qed.

(** X24. The parser sets is_palindrome exactly when the lower-cased query
    contains the letters "palindrom" somewhere (inside a longer word as
    well), only ever to true, and the filters it returns have no key other
    than the five filter names. *)
Theorem parse_palindrome_keyword unicode_ToLower (query : gostring) :
  ∃ f, parseNaturalLanguageQuery unicode_ToLower query = Some (f, None)
    ∧ (f !! k_is_palindrome = Some (VBool true)
       ↔ ∃ pre post, strings_ToLower unicode_ToLower query
                     = pre ++ str "palindrom" ++ post)
    ∧ (f !! k_is_palindrome = None ∨ f !! k_is_palindrome = Some (VBool true))
    ∧ ∀ key, is_Some (f !! key) →
        key ∈ [k_is_palindrome; k_min_length; k_max_length; k_word_count;
               k_contains_character].
Proof.
  eexists. split; [apply parse_spec|].
  rewrite spec_filters_is_palindrome, <- strings_Contains_spec.
  split; [|split].
  - by destruct (strings_Contains _ _).
  - destruct (strings_Contains _ _); [by right|by left].
  - intros key [x Hx]. unfold spec_filters in Hx.
    repeat (apply put_filter_lookup_Some in Hx as [->|Hx]; [in_list|]).
    by rewrite lookup_empty in Hx.
Qed.

(** ** The store, and the column helpers *)

(** X25. In the in-memory store, Create never fails and puts the resource
    under its value, replacing what was there; afterwards Get returns that
    resource and Exists holds; Delete of that value then succeeds, after
    which Exists fails and a second Delete reports "string not found"; no
    other value is affected by either. *)
Theorem InMemoryStore_round_trip (store : gmap gostring StringResource)
    (sr : StringResource) :
  let created := InMemoryStore_Create store sr in
  let deleted := InMemoryStore_Delete created.1 (Value sr) in
  created.2 = None
  ∧ InMemoryStore_Get created.1 (Value sr) = inl sr
  ∧ InMemoryStore_Exists created.1 (Value sr) = true
  ∧ deleted.2 = None
  ∧ InMemoryStore_Exists deleted.1 (Value sr) = false
  ∧ InMemoryStore_Delete deleted.1 (Value sr)
    = (deleted.1, Some (str "string not found"))
  ∧ ∀ value, value ≠ Value sr →
      InMemoryStore_Get created.1 value = InMemoryStore_Get store value
      ∧ InMemoryStore_Get deleted.1 value = InMemoryStore_Get store value.
Proof.
  cbv zeta. unfold InMemoryStore_Create, InMemoryStore_Delete,
    InMemoryStore_Get, InMemoryStore_Exists. cbn [fst snd].
  rewrite lookup_insert_eq. cbn [fst snd].
  rewrite lookup_delete_eq. cbn [fst snd].
  split; [done|]. split; [done|].
  split; [apply bool_decide_eq_true; eauto|]. split; [done|].
  split; [apply bool_decide_eq_false; by intros [? ?]|]. split; [done|].
  intros value Hne. split.
  - by rewrite lookup_insert_ne.
  - by rewrite lookup_delete_ne, lookup_insert_ne.
Qed.

(** X26. boolToInt followed by intToBool gives the boolean back; the other
    way round gives the integer back only for 0 and 1, every other integer
    coming back as 1. *)
Theorem boolToInt_intToBool (b : bool) (i : Z) :
  intToBool (boolToInt b) = b
  ∧ (boolToInt (intToBool i) = i ↔ i = 0 ∨ i = 1)
  ∧ (i ≠ 0 → boolToInt (intToBool i) = 1).
Proof.
  unfold intToBool, boolToInt. split; [by destruct b|].
  destruct (Z.eqb_spec i 0) as [->|Hne]; cbn [negb]; split; try lia; done.
Qed.

(** ** Status codes *)

Lemma writeError_body status errorType message :
  is_error_body (writeError status errorType message).
Proof. by exists errorType, message. Qed.

(** X27. With the in-memory store no handler answers with a 5xx status.
    GetString answers 200, 400, 404 or 405; CreateString 201, 400, 405 or
    409; DeleteString 204, 400, 404 or 405; the two list handlers, when they
    answer, 200, 400 or 405.  Every answer of these handlers with a status
    of 400 or more is an error object that repeats the status. *)
Theorem handlers_status_codes (unicode_IsLetter unicode_IsDigit : Z → bool)
    (unicode_ToLower : Z → Z) (method path query : gostring) (decoded : gostring + gostring) (now : Z)
    (q : ListQuery) (store : gmap gostring StringResource)
    (order : list StringResource) (visit : nat → list (gostring * any)) :
  let get := GetString method path store in
  let create := (CreateString unicode_IsLetter unicode_IsDigit unicode_ToLower
                   method decoded now store).1 in
  let del := (DeleteString method path store).1 in
  (StatusCode get ∈ [200; 400; 404; 405]
   ∧ (400 <= StatusCode get → is_error_body get))
  ∧ (StatusCode create ∈ [201; 400; 405; 409]
     ∧ (400 <= StatusCode create → is_error_body create))
  ∧ (StatusCode del ∈ [204; 400; 404; 405]
     ∧ (400 <= StatusCode del → is_error_body del))
  ∧ (∀ resp, ListStrings method q order visit = Some resp →
       StatusCode resp ∈ [200; 400; 405]
       ∧ (400 <= StatusCode resp → is_error_body resp))
  ∧ (∀ resp, FilterByNaturalLanguage unicode_ToLower method query order visit
             = Some resp →
       StatusCode resp ∈ [200; 400; 405]
       ∧ (400 <= StatusCode resp → is_error_body resp)).
Proof.
  cbv zeta. split; [|split; [|split; [|split]]].
  - unfold GetString.
    destruct (negb _); [split; [in_list|intros _; apply writeError_body]|].
    destruct (_ || _); [split; [in_list|intros _; apply writeError_body]|].
    destruct (url_PathUnescape _);
      [|split; [in_list|intros _; apply writeError_body]].
    destruct (InMemoryStore_Get _ _);
      [split; [in_list|cbn; lia]
      |split; [in_list|intros _; apply writeError_body]].
  - unfold CreateString.
    destruct (negb _); [split; [in_list|intros _; apply writeError_body]|].
    destruct decoded as [err|value];
      [split; [in_list|intros _; apply writeError_body]|].
    destruct (bool_decide (value = []));
      [split; [in_list|intros _; apply writeError_body]|].
    destruct (InMemoryStore_Exists _ _);
      [split; [in_list|intros _; apply writeError_body]|].
    cbn. split; [in_list|lia].
  - unfold DeleteString.
    destruct (negb _); [split; [in_list|intros _; apply writeError_body]|].
    destruct (_ || _); [split; [in_list|intros _; apply writeError_body]|].
    destruct (url_PathUnescape _);
      [|split; [in_list|intros _; apply writeError_body]].
    unfold InMemoryStore_Delete. destruct (store !! _);
      [cbn; split; [in_list|lia]
      |split; [in_list|intros _; apply writeError_body]].
  - intros resp. unfold ListStrings.
    destruct (negb _);
      [intros [= <-]; split; [in_list|intros _; apply writeError_body]|].
    destruct (ListStrings_request q);
      [intros [= <-]; split; [in_list|intros _; apply writeError_body]|].
    destruct (List _ _ _ _) as [[data count]|]; [|done].
    intros [= <-]. cbn. split; [in_list|lia].
  - intros resp. unfold FilterByNaturalLanguage.
    destruct (negb _);
      [intros [= <-]; split; [in_list|intros _; apply writeError_body]|].
    destruct (bool_decide (query = []));
      [intros [= <-]; split; [in_list|intros _; apply writeError_body]|].
    rewrite parse_spec. cbn [mbind option_bind].
    destruct (List _ _ _ _) as [[data count]|]; [|done].
    intros [= <-]. cbn. split; [in_list|lia].
Qed.

(** ** The properties above on concrete requests *)

Ltac not_in_list :=
  let H := fresh in
  intros H; repeat (apply elem_of_cons in H as [H|H]; [discriminate H|]);
  by apply elem_of_nil in H.

Ltac all_ascii := repeat (apply Forall_cons; split; [by vm_compute|]); apply Forall_nil_2.

Lemma sample_page :
  List sample_order (λ _, sample_entries) 25 0
  = Some ([sample (str "racecar")], 1).
Proof. by vm_compute. Qed.

Lemma sample_everything :
  List sample_order (λ _, []) 25 0 = Some (sample_order, 2).
Proof.
  unfold sample_order.
  generalize (sample (str "racecar")), (sample (str "hello world")).
  intros r1 r2. by vm_compute.
Qed.

Lemma sample_store_ok :
  store_ok latin1_IsLetter latin1_IsDigit latin1_ToLower sample_store.
Proof.
  unfold store_ok, sample_store.
  apply map_Forall_insert_2; [done|].
  apply map_Forall_insert_2; [done|]. apply map_Forall_empty.
Qed.

Lemma narrow_filters_typed : well_typed narrow_filters.
Proof.
  unfold narrow_filters.
  apply map_Forall_insert_2; [done|].
  apply map_Forall_insert_2; [done|]. apply well_typed_empty.
Qed.

Lemma narrow_entries_range : range_map narrow_filters narrow_entries.
Proof.
  unfold narrow_filters, narrow_entries.
  apply range_map_insert; [by vm_compute|].
  apply range_map_insert; [by vm_compute|]. apply range_map_empty.
Qed.

Lemma sample_request :
  ListStrings_request sample_query = CallList sample_filters 25 0.
Proof. reflexivity. Qed.

Lemma DeleteString_path value store :
  value ≠ [] → "%"%char ∉ value → is_Some (store !! value) →
  DeleteString MethodDelete (str "/strings/" ++ value) store
  = ({| StatusCode := 204; ResponseBody := NoBody |}, delete value store).
Proof.
  intros Hne Hp [res Hres]. unfold DeleteString.
  rewrite bool_decide_eq_true_2 by done. cbn [negb].
  rewrite strings_TrimPrefix_app.
  rewrite bool_decide_eq_false_2 by done.
  rewrite bool_decide_eq_false_2 by apply path_value_differs. cbn [orb].
  rewrite url_PathUnescape_plain by done.
  unfold InMemoryStore_Delete. by rewrite Hres.
Qed.

Lemma GetString_looks_up_plain_value_witness :
  GetString MethodGet (str "/strings/" ++ str "racecar") sample_store
  = match sample_store !! str "racecar" with
    | Some res => writeJSON 200 (Resource res)
    | None => writeError 404 (str "Not Found") (str "String not found")
    end.
Proof.
  apply (GetString_looks_up_plain_value (str "racecar") sample_store).
  - discriminate.
  - not_in_list.
Defined.


Lemma CreateString_twice_conflicts_witness :
  let store' := (CreateString latin1_IsLetter latin1_IsDigit latin1_ToLower
                   MethodPost (inr (str "racecar")) 0 ∅).2 in
  CreateString latin1_IsLetter latin1_IsDigit latin1_ToLower
    MethodPost (inr (str "racecar")) 1 store'
  = (writeError 409 (str "Conflict") (str "String already exists"), store').
Proof.
  apply (CreateString_twice_conflicts latin1_IsLetter latin1_IsDigit
           latin1_ToLower (str "racecar") 0 1 ∅).
  discriminate.
Defined.

Lemma CreateString_then_GetString_witness :
  let r := CreateString latin1_IsLetter latin1_IsDigit latin1_ToLower
             MethodPost (inr (str "racecar")) 0 ∅ in
  ∃ res, r.1 = writeJSON 201 (Resource res)
       ∧ GetString MethodGet (str "/strings/" ++ str "racecar") r.2
         = writeJSON 200 (Resource res)
       ∧ Value res = str "racecar" ∧ ID res = SHA256Hash (Props res).
Proof.
  apply (CreateString_then_GetString latin1_IsLetter latin1_IsDigit
           latin1_ToLower (str "racecar") 0 ∅).
  - not_in_list.
  - reflexivity.
Defined.

Lemma DeleteString_then_gone_witness :
  let path := str "/strings/" ++ str "racecar" in
  let store' := (DeleteString MethodDelete path sample_store).2 in
  GetString MethodGet path store'
  = writeError 404 (str "Not Found") (str "String not found")
  ∧ DeleteString MethodDelete path store'
    = (writeError 404 (str "Not Found") (str "String not found"), store').
Proof.
  apply (DeleteString_then_gone (str "/strings/" ++ str "racecar") sample_store).
  rewrite DeleteString_path; [reflexivity|discriminate|not_in_list|].
  unfold sample_store. rewrite lookup_insert_eq. by eexists.
Defined.

Lemma ListStrings_passes_validated_parameters_witness :
  map_Forall validated_filter sample_filters
  ∧ 1 <= 25 <= 100 ∧ 0 <= 0 <= max_int.
Proof.
  apply (ListStrings_passes_validated_parameters sample_query
           sample_filters 25 0).
  reflexivity.
Defined.

Lemma ListStrings_answers_witness :
  match ListStrings_request sample_query with
  | BadRequest message =>
    ListStrings MethodGet sample_query sample_order (λ _, sample_entries)
    = Some (writeError 400 (str "Bad Request") message)
  | CallList f limit offset =>
    ListStrings MethodGet sample_query sample_order (λ _, sample_entries)
    = Some (writeJSON 200
              (ListResponse
                 (take (Z.to_nat limit)
                    (drop (Z.to_nat offset) (matching f sample_order)))
                 (Z.of_nat (length (matching f sample_order))) f))
    ∧ (length (take (Z.to_nat limit)
                 (drop (Z.to_nat offset) (matching f sample_order)))
       <= Z.to_nat limit)%nat
  end.
Proof.
  apply (ListStrings_answers sample_query sample_store sample_order
           (λ _, sample_entries)).
  - exact sample_order_range.
  - intros f limit offset H k. rewrite sample_request in H.
    injection H as <- _ _. exact sample_entries_range.
  - rewrite <- (range_store_length _ _ sample_order_range). by vm_compute.
Defined.

Lemma List_without_filters_witness :
  List sample_order (λ _, []) 1 1
  = Some (take (Z.to_nat 1) (drop (Z.to_nat 1) sample_order),
          Z.of_nat (size sample_store)).
Proof.
  apply (List_without_filters sample_store sample_order (λ _, []) 1 1).
  - exact sample_order_range.
  - intros _. exact range_map_empty.
  - lia.
  - lia.
  - by vm_compute.
Defined.


Lemma List_results_sound_witness :
  1 = Z.of_nat (length (matching sample_filters (map_to_list sample_store).*2))
  ∧ [sample (str "racecar")] `sublist_of` sample_order
  ∧ Z.of_nat (length [sample (str "racecar")]) <= 1
  ∧ ∀ res, res ∈ [sample (str "racecar")] →
      satisfies (Props res) sample_filters
      ∧ ∃ key, sample_store !! key = Some res.
Proof.
  apply (List_results_sound sample_store sample_filters sample_order
           (λ _, sample_entries) 25 0 [sample (str "racecar")] 1).
  - exact sample_filters_typed.
  - exact sample_order_range.
  - intros _. exact sample_entries_range.
  - exact sample_page.
Defined.

Lemma listed_values_pass_the_filters_witness :
  let res := sample (str "racecar") in
  sample_store !! Value res = Some res
  ∧ (∀ b, sample_filters !! k_is_palindrome = Some (VBool b) →
       isPalindrome latin1_IsLetter latin1_IsDigit latin1_ToLower (Value res) = b)
  ∧ (∀ n, sample_filters !! k_min_length = Some (VInt n) →
       n <= Z.of_nat (length (Value res)))
  ∧ (∀ n, sample_filters !! k_max_length = Some (VInt n) →
       Z.of_nat (length (Value res)) <= n)
  ∧ (∀ n, sample_filters !! k_word_count = Some (VInt n) →
       countWords (Value res) = n)
  ∧ (∀ c, sample_filters !! k_contains_character = Some (VString c) →
       ∃ r, r ∈ runes (Value res) ∧ c = EncodeRune r).
Proof.
  apply (listed_values_pass_the_filters latin1_IsLetter latin1_IsDigit
           latin1_ToLower sample_store sample_filters sample_order
           (λ _, sample_entries) 25 0 [sample (str "racecar")] 1
           (sample (str "racecar"))).
  - exact sample_store_ok.
  - exact sample_filters_typed.
  - exact sample_order_range.
  - intros _. exact sample_entries_range.
  - exact sample_page.
  - by left.
Defined.

Lemma List_impossible_range_witness :
  List sample_order (λ _, narrow_entries) 25 0 = Some ([], 0).
Proof.
  apply (List_impossible_range narrow_filters sample_order
           (λ _, narrow_entries) 25 0 5 3).
  - exact narrow_filters_typed.
  - intros _. exact narrow_entries_range.
  - unfold narrow_filters. apply lookup_insert_eq.
  - unfold narrow_filters.
    rewrite lookup_insert_ne by keys_differ. apply lookup_insert_eq.
  - lia.
  - lia.
  - lia.
  - by vm_compute.
Defined.

Lemma List_more_filters_fewer_results_witness :
  1 <= 2
  ∧ ∀ res, res ∈ [sample (str "racecar")] → satisfies (Props res) ∅.
Proof.
  apply (List_more_filters_fewer_results ∅ sample_filters sample_order
           (λ _, []) (λ _, sample_entries) 25 0 25 0
           sample_order 2 [sample (str "racecar")] 1).
  - apply map_empty_subseteq.
  - exact well_typed_empty.
  - exact sample_filters_typed.
  - intros _. exact range_map_empty.
  - intros _. exact sample_entries_range.
  - exact sample_everything.
  - exact sample_page.
Defined.

Lemma isPalindrome_mirror_witness :
  isPalindrome latin1_IsLetter latin1_IsDigit latin1_ToLower
    (str "Step on" ++ reverse (str "Step on")) = true
  ∧ isPalindrome latin1_IsLetter latin1_IsDigit latin1_ToLower
      (reverse (str "Step on"))
    = isPalindrome latin1_IsLetter latin1_IsDigit latin1_ToLower (str "Step on").
Proof.
  apply (isPalindrome_mirror latin1_IsLetter latin1_IsDigit latin1_ToLower
           (str "Step on")).
  all_ascii.
Defined.

Lemma isPalindrome_ignores_case_and_punctuation_witness :
  isPalindrome latin1_IsLetter latin1_IsDigit latin1_ToLower
    (ascii_lower <$> str "No, on!")
  = isPalindrome latin1_IsLetter latin1_IsDigit latin1_ToLower (str "No, on!")
  ∧ isPalindrome latin1_IsLetter latin1_IsDigit latin1_ToLower
      (List.filter (λ a, latin1_IsLetter (byteZ (ascii_lower a))
                         || latin1_IsDigit (byteZ (ascii_lower a)))
         (str "No, on!"))
    = isPalindrome latin1_IsLetter latin1_IsDigit latin1_ToLower (str "No, on!").
Proof.
  apply (isPalindrome_ignores_case_and_punctuation latin1_IsLetter
           latin1_IsDigit latin1_ToLower (str "No, on!")).
  all_ascii.
Defined.
